(** * Vector-space retrieval engine of [hw2_copy.py]: embedding and properties

    The Python module is embedded function by function.  Conventions:

    - Python numbers (ints and floats that take part in weights, scores,
      precision and recall) are exact rationals [Q]; two numbers are the same
      number when they are [==] ([Qeq]).  The logarithms of [norm_precision]
      live in [R].  Rounding of IEEE doubles is not part of this model, so a
      statement about a computed number is made only where rounding cannot
      change it: it names the expression the code evaluates, operation by
      operation, or it is restricted to whole-number weights, whose sums and
      products are exact in doubles.  Module [Binary64] evaluates the same
      expressions on primitive floats where rounding shows.
    - A [dict] used as a map is a [gmap]; a [Counter] is a [gmap] whose lookup
      of a missing key yields 0; a [set] is a [gset].  Iteration over a dict
      or a set follows the map's own key order, not the insertion order; with
      exact arithmetic the sums and the in-place updates below do not depend
      on the order ([sum_Permutation], [tfidf_loop], [incr_all_get]).
    - A Python exception is a [Raise] outcome of the [result] monad. *)

From Stdlib Require Import QArith Qfield Psatz Reals Sorted Floats.
From stdpp Require Import gmap strings list fin_maps.

Local Open Scope Q_scope.

(** ** Exceptions *)

Inductive exn : Set := ZeroDivisionError | IndexError | KeyError.

Inductive result (A : Type) : Type :=
  | Ok (a : A)
  | Raise (e : exn).
Arguments Ok {A} a.
Arguments Raise {A} e.

Global Instance result_ret : MRet result := λ A a, Ok a.
Global Instance result_bind : MBind result := λ A B f r,
  match r with
  | Ok a => f a
  | Raise e => Raise e
  end.

(** [for x in xs: st = body(st, x)] where the body may raise. *)
Fixpoint for_each {S A : Type} (body : S → A → result S) (xs : list A) (st : S)
    : result S :=
  match xs with
  | [] => Ok st
  | x :: xs' => st' ← body st x; for_each body xs' st'
  end.

(** Order tests on numbers, for [filter] and [decide]. *)
Global Instance Qle_decision : RelDecision Qle.
Proof.
  intros x y. destruct (Qlt_le_dec y x) as [H|H].
  - right. apply Qlt_not_le, H.
  - left. exact H.
Defined.

Global Instance Qlt_decision : RelDecision Qlt.
Proof.
  intros x y. destruct (Qlt_le_dec x y) as [H|H].
  - left. exact H.
  - right. apply Qle_not_lt, H.
Defined.

(** Python's [a / b] on numbers. *)
Definition pydiv (a b : Q) : result Q :=
  if Qeq_bool b 0 then Raise ZeroDivisionError else Ok (a / b).

(** Python's builtin [sum]: a left fold that starts at 0. *)
Definition sum (l : list Q) : Q := foldl Qplus 0 l.

(** ** Data model *)

Record Document : Type := {
  doc_id : Z;
  author : list string;
  title : list string;
  keyword : list string;
  abstract : list string
}.

Definition sections (d : Document) : list (list string) :=
  [author d; title d; keyword d; abstract d].

Record TermWeights : Type := {
  tw_author : Q;
  tw_title : Q;
  tw_keyword : Q;
  tw_abstract : Q
}.

Abbreviation SparseVector := (gmap string Q).
Abbreviation Counter := (gmap string Z).

(** [c[k]] on a [Counter]: a missing key reads as 0 and is not inserted. *)
Definition Counter_get (c : Counter) (k : string) : Z := default 0%Z (c !! k).

(** [d.get(k, 0)], which is also what [d[k]] reads on a [defaultdict(float)]. *)
Definition dict_get (d : SparseVector) (k : string) : Q := default 0 (d !! k).

(** [d[k]] on a plain [dict]. *)
Definition dict_getitem (d : SparseVector) (k : string) : result Q :=
  match d !! k with
  | Some v => Ok v
  | None => Raise KeyError
  end.

Definition keys (d : SparseVector) : list string := (map_to_list d).*1.
Definition values (d : SparseVector) : list Q := (map_to_list d).*2.

(** Every weight of the vector satisfies [P]. *)
Definition weights_in (P : Q → Prop) (x : SparseVector) : Prop :=
  ∀ k v, x !! k = Some v → P v.

Definition presence (v : Q) : Prop := v == 0 ∨ v == 1.


(** ** Term-document matrix *)

Module DocFreq.

(** [words.add(word)] for every word of every section. *)
Definition doc_words (doc : Document) : gset string :=
  foldl (λ words sec, foldl (λ words word, {[word]} ∪ words) words sec)
        ∅ (sections doc).

(** [freq[word] += 1] *)
Definition incr (freq : Counter) (word : string) : Counter :=
  <[word := (Counter_get freq word + 1)%Z]> freq.

Definition compute_doc_freqs (docs : list Document) : Counter :=
  foldl (λ freq doc, foldl incr freq (elements (doc_words doc))) ∅ docs.

(** Specification side: the term occurs in at least one of the four fields,
    and the documents of a corpus for which that holds. *)
Definition contains (t : string) (doc : Document) : Prop :=
  t ∈ author doc ++ title doc ++ keyword doc ++ abstract doc.

Global Instance contains_dec t doc : Decision (contains t doc).
Proof. unfold contains. apply _. Defined.

Definition containing (t : string) (docs : list Document) : list Document :=
  filter (contains t) docs.

End DocFreq.

Module Vectorize.

(** [vec[word] += w] on a [defaultdict(float)]. *)
Definition add_weight (w : Q) (vec : SparseVector) (word : string) : SparseVector :=
  <[word := dict_get vec word + w]> vec.

Definition compute_tf (doc : Document) (doc_freqs : Counter) (weights : TermWeights)
    : SparseVector :=
  let vec := ∅ in
  let vec := foldl (add_weight (tw_author weights)) vec (author doc) in
  let vec := foldl (add_weight (tw_keyword weights)) vec (keyword doc) in
  let vec := foldl (add_weight (tw_title weights)) vec (title doc) in
  let vec := foldl (add_weight (tw_abstract weights)) vec (abstract doc) in
  vec.

(** One round of the loop of [compute_tfidf].  [idf] and [tf] are the same
    dict object, so the read [tf[i]] sees the writes made so far. *)
Definition tfidf_step (doc_freqs : Counter) (idf : SparseVector) (i : string)
    : result SparseVector :=
  val ← dict_getitem idf i;
  if bool_decide (Counter_get doc_freqs i ≠ 0%Z) then
    q ← pydiv val (inject_Z (Counter_get doc_freqs i));
    Ok (<[i := q]> idf)
  else
    Ok (<[i := 0]> idf).

Definition compute_tfidf (doc : Document) (doc_freqs : Counter) (weights : TermWeights)
    : result SparseVector :=
  let tf := compute_tf doc doc_freqs weights in
  for_each (tfidf_step doc_freqs) (keys tf) tf.

(** [vec[word] = 1] *)
Definition set_one (vec : SparseVector) (word : string) : SparseVector :=
  <[word := 1]> vec.

Definition compute_boolean (doc : Document) (doc_freqs : Counter) (weights : TermWeights)
    : SparseVector :=
  let vec := ∅ in
  let vec := foldl set_one vec (author doc) in
  let vec := foldl set_one vec (keyword doc) in
  let vec := foldl set_one vec (title doc) in
  let vec := foldl set_one vec (abstract doc) in
  vec.

(** Specification side: the weight the inverse-document-frequency scheme
    assigns to a term whose accumulated weight is [w], and the two conditions
    on the field weights. *)
Definition idf_weight (doc_freqs : Counter) (t : string) (w : Q) : Q :=
  if bool_decide (Counter_get doc_freqs t ≠ 0%Z)
  then w / inject_Z (Counter_get doc_freqs t)
  else 0.

Definition positive_weights (weights : TermWeights) : Prop :=
  0 < tw_author weights ∧ 0 < tw_title weights ∧
  0 < tw_keyword weights ∧ 0 < tw_abstract weights.

Definition nonneg_weights (weights : TermWeights) : Prop :=
  0 <= tw_author weights ∧ 0 <= tw_title weights ∧
  0 <= tw_keyword weights ∧ 0 <= tw_abstract weights.

End Vectorize.

(** ** Vector similarity *)

Module Similarity.

Definition dictdot (x y : SparseVector) : Q :=
  let ks := if bool_decide (size x < size y)%nat then keys x else keys y in
  sum (map (λ key, dict_get x key * dict_get y key) ks).

Definition dice_sim (x y : SparseVector) : result Q :=
  let num := dictdot x y in
  if Qeq_bool num 0 then Ok 0
  else pydiv (2 * num) (sum (values x) + sum (values y)).

Definition jaccard_sim (x y : SparseVector) : result Q :=
  let num := dictdot x y in
  if Qeq_bool num 0 then Ok 0
  else if Qeq_bool (sum (values x) + sum (values y) - num) 0 then pydiv 1 10000000
  else pydiv num (sum (values x) + sum (values y) - num).

(** Python's [min(a, b)]: [b] only when [b < a]. *)
Definition py_min (a b : Q) : Q := if Qlt_le_dec b a then b else a.

Definition overlap_sim (x y : SparseVector) : result Q :=
  let num := dictdot x y in
  if Qeq_bool num 0 then Ok 0
  else pydiv num (py_min (sum (values x)) (sum (values y))).


(** Specification side: the two ranges of weights. *)
Definition nonneg (v : Q) : Prop := 0 <= v.
Definition unit_range (v : Q) : Prop := 0 <= v ∧ v <= 1.

End Similarity.

(** ** Precision and recall *)

Module Precision.

Definition interpolate (x1 y1 x2 y2 x : Q) : result Q :=
  m ← pydiv (y2 - y1) (x2 - x1);
  let b := y1 - m * x1 in
  Ok (m * x + b).

(** The local variables of [precision_at] that the loop updates. *)
Record locals : Type := {
  lower_r : Q; upper_r : Q;
  lower_p : Q; upper_p : Q;
  tp : Z;
  c : Z
}.

Definition init : locals :=
  {| lower_r := 0; upper_r := 0; lower_p := 1; upper_p := 1; tp := 0; c := 0 |}.

(** The [for i in results] loop; leaving the recursion is the [break]. *)
Fixpoint scan (recall : Q) (relevant results : list Z) (st : locals) : result locals :=
  match results with
  | [] => Ok st
  | i :: rest =>
    let c' := (c st + 1)%Z in
    if bool_decide (i ∈ relevant) then
      let tp' := (tp st + 1)%Z in
      precision1 ← pydiv (inject_Z tp') (inject_Z c');
      recall1 ← pydiv (inject_Z tp') (inject_Z (Z.of_nat (length relevant)));
      if Qlt_le_dec recall recall1 then
        Ok {| lower_r := lower_r st; upper_r := recall1;
              lower_p := lower_p st; upper_p := precision1;
              tp := tp'; c := c' |}
      else
        scan recall relevant rest
          {| lower_r := recall1; upper_r := upper_r st;
             lower_p := precision1; upper_p := upper_p st;
             tp := tp'; c := c' |}
    else
      scan recall relevant rest
        {| lower_r := lower_r st; upper_r := upper_r st;
           lower_p := lower_p st; upper_p := upper_p st;
           tp := tp st; c := c' |}
  end.

Definition precision_at (recall : Q) (results relevant : list Z) : result Q :=
  st ← scan recall relevant results init;
  interpolate (lower_r st) (lower_p st) (upper_r st) (upper_p st) recall.

(** *** Specification side: the bracketing points, stated without the loop

    A point is a pair (recall, precision).  The point achieved at rank [j]
    (1-based) exists when the [j]-th result is relevant; its true-positive
    count is the number of relevant documents among the first [j] results. *)

Definition hits (relevant prefix : list Z) : nat :=
  length (filter (λ d, d ∈ relevant) prefix).

Definition point_at (results relevant : list Z) (j : nat) : option (Q * Q) :=
  d ← results !! pred j;
  if bool_decide (d ∈ relevant) then
    let tpj := inject_Z (Z.of_nat (hits relevant (take j results))) in
    Some (tpj / inject_Z (Z.of_nat (length relevant)), tpj / inject_Z (Z.of_nat j))
  else None.

Definition achieved_points (results relevant : list Z) : list (Q * Q) :=
  omap (point_at results relevant) (seq 1 (length results)).

Definition anchor : Q * Q := (0, 1).

Definition lower_bracket (target : Q) (pts : list (Q * Q)) : Q * Q :=
  default anchor (last (filter (λ p, p.1 <= target) pts)).

Definition upper_bracket (target : Q) (pts : list (Q * Q)) : option (Q * Q) :=
  head (filter (λ p, target < p.1) pts).

Definition interpolation (lo up : Q * Q) (target : Q) : Q :=
  lo.2 + (up.2 - lo.2) * (target - lo.1) / (up.1 - lo.1).

(** *** Proof side

    The bracket variables of the loop, as points. *)
Definition lower (st : locals) : Q * Q := (lower_r st, lower_p st).
Definition upper (st : locals) : Q * Q := (upper_r st, upper_p st).

(** The achieved points, computed with the loop's two counters. *)
Fixpoint achieved_from (relevant : list Z) (tp c : Z) (results : list Z)
    : list (Q * Q) :=
  match results with
  | [] => []
  | i :: rest =>
    if bool_decide (i ∈ relevant) then
      (inject_Z (tp + 1) / inject_Z (Z.of_nat (length relevant)),
       inject_Z (tp + 1) / inject_Z (c + 1))
      :: achieved_from relevant (tp + 1) (c + 1) rest
    else achieved_from relevant tp (c + 1) rest
  end.

End Precision.

(** ** Rank-based metrics *)

Module Rank.

Local Open Scope R_scope.

(** The inner loop of [calc_rank]: the counter [c] at the first match. *)
Fixpoint find_rank (d : Z) (results : list Z) (c : Z) : option Z :=
  match results with
  | [] => None
  | r :: rest => if bool_decide (r = d) then Some c else find_rank d rest (c + 1)%Z
  end.

Definition calc_rank (results relevant : list Z) : list Z :=
  omap (λ d, find_rank d results 1%Z) relevant.

(** A numpy double: a real, an infinity or nan.  Signed zeros are not kept. *)
Inductive npfloat : Type :=
  | Fin (r : R)
  | PInf
  | NInf
  | NaN.

Definition np_log (x : R) : npfloat :=
  if Rlt_dec 0 x then Fin (ln x)
  else if Req_dec_T x 0 then NInf
  else NaN.

Definition np_opp (a : npfloat) : npfloat :=
  match a with
  | Fin r => Fin (- r)
  | PInf => NInf
  | NInf => PInf
  | NaN => NaN
  end.

Definition np_add (a b : npfloat) : npfloat :=
  match a, b with
  | Fin r, Fin s => Fin (r + s)
  | NaN, _ | _, NaN => NaN
  | PInf, NInf | NInf, PInf => NaN
  | PInf, _ | _, PInf => PInf
  | NInf, _ | _, NInf => NInf
  end.

Definition np_sub (a b : npfloat) : npfloat := np_add a (np_opp b).

(** An infinity times a real of the given sign. *)
Definition inf_scaled (inf : npfloat) (r : R) : npfloat :=
  if Rlt_dec 0 r then inf
  else if Req_dec_T r 0 then NaN
  else np_opp inf.

Definition np_mul (a b : npfloat) : npfloat :=
  match a, b with
  | Fin r, Fin s => Fin (r * s)
  | NaN, _ | _, NaN => NaN
  | Fin r, inf | inf, Fin r => inf_scaled inf r
  | PInf, PInf | NInf, NInf => PInf
  | PInf, NInf | NInf, PInf => NInf
  end.

Definition np_div (a b : npfloat) : npfloat :=
  match a, b with
  | NaN, _ | _, NaN => NaN
  | Fin r, Fin s =>
    if Req_dec_T s 0 then inf_scaled PInf r else Fin (r / s)
  | Fin _, _ => Fin 0
  | inf, Fin s => if Rlt_dec s 0 then np_opp inf else inf
  | _, _ => NaN
  end.

(** [l[i]] on a list. *)
Definition list_getitem {A : Type} (l : list A) (i : nat) : result A :=
  match l !! i with
  | Some a => Ok a
  | None => Raise IndexError
  end.

(** The body of the summing loop: [log_rank += log_rank_list[i]] and then
    [log_i += log_i_list[i]].  The state is the pair (log_i, log_rank). *)
Definition sum_step (log_rank_list log_i_list : list npfloat)
    (acc : npfloat * npfloat) (i : nat) : result (npfloat * npfloat) :=
  lr ← list_getitem log_rank_list i;
  li ← list_getitem log_i_list i;
  Ok (np_add acc.1 li, np_add acc.2 lr).

Definition norm_precision (results relevant : list Z) : result npfloat :=
  let r_Rel := Z.of_nat (length relevant) in
  let n_N := Z.of_nat (length results) in
  let rank := calc_rank results relevant in
  let log_rank_list := map (λ r, np_log (IZR r)) rank in
  let log_i_list :=
    map (λ i, np_log (IZR (Z.of_nat i + 1))) (seq 0 (length relevant)) in
  sums ← for_each (sum_step log_rank_list log_i_list)
                  (seq 0 (length relevant)) (Fin 0, Fin 0);
  let log_i := sums.1 in
  let log_rank := sums.2 in
  let log_n := np_mul (Fin (IZR n_N)) (np_log (IZR n_N)) in
  let n_rel_log := np_mul (Fin (IZR (n_N - r_Rel))) (np_log (IZR (n_N - r_Rel))) in
  let log_rel := np_mul (Fin (IZR r_Rel)) (np_log (IZR r_Rel)) in
  Ok (np_sub (Fin 1)
        (np_div (np_sub log_rank log_i)
                (np_sub (np_sub log_n n_rel_log) log_rel))).

(** *** Specification side

    Sum of the logarithms of a list of positive integers. *)
Definition sum_ln (l : list Z) : R := foldr (λ k acc, ln (IZR k) + acc) 0 l.

(** The integers 1..n. *)
Definition upto (n : nat) : list Z := map (λ i, Z.of_nat i) (seq 1 n).

(** [r] is the 1-based position of [d] in [results]. *)
Definition is_rank_of (results : list Z) (d r : Z) : Prop :=
  (1 <= r)%Z ∧ results !! Z.to_nat (r - 1) = Some d.

(** [d] occurs exactly once in [results]. *)
Definition occurs_once (results : list Z) (d : Z) : Prop :=
  length (filter (λ x, x = d) results) = 1%nat.

End Rank.

(** ** Search *)

Module Search.

(** [enumerate(l)], counting from [start]. *)
Fixpoint enumerate_from {A : Type} (start : Z) (l : list A) : list (Z * A) :=
  match l with
  | [] => []
  | a :: l' => (start, a) :: enumerate_from (start + 1)%Z l'
  end.

Definition enumerate {A : Type} (l : list A) : list (Z * A) := enumerate_from 0%Z l.

(** Python's [sorted(l, key=key)] is a stable sort that compares keys with
    [<] only.  It is a builtin, modelled here by a stable insertion: an
    element moves past the elements whose key is strictly smaller and past no
    other. *)
Fixpoint insert_sorted {A : Type} (key : A → Q) (a : A) (l : list A) : list A :=
  match l with
  | [] => [a]
  | b :: l' =>
    if Qlt_le_dec (key b) (key a) then b :: insert_sorted key a l'
    else a :: b :: l'
  end.

Definition sorted {A : Type} (key : A → Q) (l : list A) : list A :=
  foldr (insert_sorted key) [] l.

Definition search (doc_vectors : list SparseVector) (query_vec : SparseVector)
    (sim : SparseVector → SparseVector → result Q) : result (list Z) :=
  results_with_score ← mapM
    (λ p : Z * SparseVector, s ← sim query_vec p.2; Ok ((p.1 + 1)%Z, s))
    (enumerate doc_vectors);
  let results_with_score := sorted (λ x : Z * Q, - x.2) results_with_score in
  Ok (results_with_score.*1).

(** Specification side: the document ids 1..n. *)
Definition doc_ids (n : nat) : list Z := map (λ i, Z.of_nat i) (seq 1 n).

(** The order a stable sort establishes: by key, and by original position
    among equal keys. *)
Definition stable_lt {A : Type} (key : A → Q) (before : A → A → Prop) (a b : A)
    : Prop :=
  key a < key b ∨ (key a == key b ∧ before a b).

End Search.

(** ** Preprocessing

    The module-level [stemmer] and [stopwords] are taken as arguments: the
    stemmer is any function on words, the stop list any set of words. *)

Module Preprocess.

Definition stem_doc (stemmer : string → string) (doc : Document) : Document :=
  {| doc_id := doc_id doc;
     author := map stemmer (author doc);
     title := map stemmer (title doc);
     keyword := map stemmer (keyword doc);
     abstract := map stemmer (abstract doc) |}.

Definition stem_docs (stemmer : string → string) (docs : list Document)
    : list Document :=
  map (stem_doc stemmer) docs.

(** [[word for word in sec if word not in stopwords]] *)
Definition keep_words (stopwords : gset string) (sec : list string) : list string :=
  filter (λ word, word ∉ stopwords) sec.

Definition remove_stopwords_doc (stopwords : gset string) (doc : Document)
    : Document :=
  {| doc_id := doc_id doc;
     author := keep_words stopwords (author doc);
     title := keep_words stopwords (title doc);
     keyword := keep_words stopwords (keyword doc);
     abstract := keep_words stopwords (abstract doc) |}.

Definition remove_stopwords (stopwords : gset string) (docs : list Document)
    : list Document :=
  map (remove_stopwords_doc stopwords) docs.

(** [global_stopwords] is the module-level list that [remove_stopwords]
    reads; [stopwords] is the function's own last argument. *)
Definition process_docs_and_queries
    (global_stopwords : gset string) (stemmer : string → string)
    (docs queries : list Document) (stem removestop : bool)
    (stopwords : gset string) : list Document * list Document :=
  let processed_docs := docs in
  let processed_queries := queries in
  let processed_docs :=
    if removestop then remove_stopwords global_stopwords processed_docs
    else processed_docs in
  let processed_queries :=
    if removestop then remove_stopwords global_stopwords processed_queries
    else processed_queries in
  let processed_docs :=
    if stem then stem_docs stemmer processed_docs else processed_docs in
  let processed_queries :=
    if stem then stem_docs stemmer processed_queries else processed_queries in
  (processed_docs, processed_queries).

End Preprocess.

(** ** Mean precision and normalised recall *)

Module Metrics.

Definition mean_precision1 (results relevant : list Z) : result Q :=
  p1 ← Precision.precision_at (25 # 100) results relevant;
  p2 ← Precision.precision_at (5 # 10) results relevant;
  p3 ← Precision.precision_at (75 # 100) results relevant;
  pydiv (p1 + p2 + p3) 3.

(** [summ += precision_at(0.1*i, results, relevant)] *)
Definition mean2_step (results relevant : list Z) (summ : Q) (i : nat) : result Q :=
  p ← Precision.precision_at ((1 # 10) * inject_Z (Z.of_nat i)) results relevant;
  Ok (summ + p).

Definition mean_precision2 (results relevant : list Z) : result Q :=
  summ ← for_each (mean2_step results relevant) (seq 1 10) 0;
  Ok ((1 # 10) * summ).

(** [sum_rank += rank[i-1]] and then [sum_i += i]; the state is the pair
    (sum_rank, sum_i). *)
Definition recall_step (rank : list Z) (acc : Z * Z) (i : nat) : result (Z * Z) :=
  r ← Rank.list_getitem rank (pred i);
  Ok ((acc.1 + r)%Z, (acc.2 + Z.of_nat i)%Z).

Definition norm_recall (results relevant : list Z) : result Q :=
  let r_Rel := Z.of_nat (length relevant) in
  let n_N := Z.of_nat (length results) in
  let rank := Rank.calc_rank results relevant in
  sums ← for_each (recall_step rank) (seq 1 (length relevant)) (0%Z, 0%Z);
  let sum_rank := sums.1 in
  let sum_i := sums.2 in
  q ← pydiv (inject_Z (sum_rank - sum_i)) (inject_Z (r_Rel * (n_N - r_Rel)));
  Ok (1 - q).

(** Specification side: the sum of a list of integers. *)
Definition sum_Z (l : list Z) : Z := foldr Z.add 0%Z l.

(** Specification side: how often a term occurs in a field, as a number. *)
Definition occurrences (t : string) (field : list string) : Q :=
  inject_Z (Z.of_nat (length (filter (λ word, word = t) field))).

(** Specification side: the weighted frequency of a term in a document. *)
Definition weighted_frequency (doc : Document) (weights : TermWeights) (t : string)
    : Q :=
  occurrences t (author doc) * tw_author weights
  + occurrences t (keyword doc) * tw_keyword weights
  + occurrences t (title doc) * tw_title weights
  + occurrences t (abstract doc) * tw_abstract weights.

(** Specification side: [d] stands at rank [r] (1-based) in [results] and
    nowhere before. *)
Definition first_rank_of (results : list Z) (d r : Z) : Prop :=
  (1 <= r <= Z.of_nat (length results))%Z
  ∧ results !! Z.to_nat (r - 1) = Some d
  ∧ ∀ j, (j < Z.to_nat (r - 1))%nat → results !! j ≠ Some d.

End Metrics.

(** ** The same arithmetic in double precision

    Python floats are binary64 numbers.  The functions of this module repeat
    the arithmetic of [interpolate], [dictdot] and [overlap_sim] on
    primitive floats, with a dict as the list of its items in insertion
    order.  They serve to evaluate the code on concrete inputs where rounding
    shows. *)

Module Binary64.

Local Open Scope float_scope.

Definition pydiv (a b : float) : result float :=
  if PrimFloat.eqb b 0 then Raise ZeroDivisionError else Ok (a / b).

Definition py_sum (l : list float) : float := foldl PrimFloat.add 0 l.

Definition interpolate (x1 y1 x2 y2 x : float) : result float :=
  m ← pydiv (y2 - y1) (x2 - x1);
  let b := y1 - m * x1 in
  Ok (m * x + b).

(** The two-point formula of the specification, evaluated in doubles. *)
Definition two_point (lower_r lower_p upper_r upper_p target : float) : float :=
  lower_p + (upper_p - lower_p) * (target - lower_r) / (upper_r - lower_r).

(** [d.get(k, 0)] *)
Fixpoint get (d : list (string * float)) (k : string) : float :=
  match d with
  | [] => 0
  | (k', v) :: d' => if bool_decide (k' = k) then v else get d' k
  end.

Definition dictdot (x y : list (string * float)) : float :=
  let ks := if bool_decide (length x < length y)%nat then x.*1 else y.*1 in
  py_sum (map (λ key, get x key * get y key) ks).

Definition py_min (a b : float) : float := if PrimFloat.ltb b a then b else a.

Definition overlap_sim (x y : list (string * float)) : result float :=
  let num := dictdot x y in
  if PrimFloat.eqb num 0 then Ok 0
  else pydiv num (py_min (py_sum x.*2) (py_sum y.*2)).

End Binary64.

(** ** Sample inputs *)

Definition doc_smith : Document :=
  {| doc_id := 1; author := ["smith"%string]; title := ["parsing"%string];
     keyword := []; abstract := ["parsing"%string; "tables"%string] |}.

Definition doc_jones : Document :=
  {| doc_id := 2; author := ["jones"%string]; title := ["tables"%string];
     keyword := ["parsing"%string]; abstract := [] |}.

Definition stop_list : gset string := {["the"%string]} ∪ {["of"%string]}.

Definition doc_the : Document :=
  {| doc_id := 3; author := ["knuth"%string];
     title := ["the"%string; "art"%string; "of"%string; "parsing"%string];
     keyword := []; abstract := ["of"%string; "tables"%string] |}.

Definition weights_no_author : TermWeights :=
  {| tw_author := 0; tw_title := 1; tw_keyword := 1; tw_abstract := 1 |}.

Definition weights_unit : TermWeights :=
  {| tw_author := 1; tw_title := 1; tw_keyword := 1; tw_abstract := 1 |}.

Definition vec_a1 : SparseVector := {["a"%string := 1]}.
Definition vec_a2 : SparseVector := {["a"%string := 2]}.
Definition vec_a3 : SparseVector := {["a"%string := 3]}.
Definition vec_b1 : SparseVector := {["b"%string := 1]}.
Definition vec_ab : SparseVector := <["a"%string := 1]> {["b"%string := 1]}.

Definition vec_mixed : SparseVector := <["a"%string := 1]> {["b"%string := -1]}.

Definition ranking10 : list Z := [3; 2; 7; 5; 1; 4; 6; 8; 9; 10]%Z.

(** * Properties *)

(** ** The functions on small inputs *)

Example compute_doc_freqs_twice :
  DocFreq.compute_doc_freqs [doc_smith; doc_smith]
  = <["smith"%string := 2%Z]> (<["parsing"%string := 2%Z]> {["tables"%string := 2%Z]}).
Proof. vm_compute. reflexivity. Qed.

Example compute_tf_smith :
  Vectorize.compute_tf doc_smith ∅ weights_unit
  = <["smith"%string := 1]> (<["parsing"%string := 2]> {["tables"%string := 1]}).
Proof. vm_compute. reflexivity. Qed.

Example compute_boolean_smith :
  Vectorize.compute_boolean doc_smith ∅ weights_unit
  = <["smith"%string := 1]> (<["parsing"%string := 1]> {["tables"%string := 1]}).
Proof. vm_compute. reflexivity. Qed.

Example calc_rank_ranking10 : Rank.calc_rank ranking10 [2; 5]%Z = [2; 4]%Z.
Proof. reflexivity. Qed.

Example calc_rank_skips_absent : Rank.calc_rank [3; 2]%Z [2; 5]%Z = [2]%Z.
Proof. reflexivity. Qed.

Example norm_precision_absent_id :
  Rank.norm_precision [3; 2]%Z [2; 5]%Z = Raise IndexError.
Proof. reflexivity. Qed.

Example achieved_points_ranking10 :
  Precision.achieved_points ranking10 [2; 5]%Z = [(1 # 2, 1 # 2); (2 # 2, 2 # 4)].
Proof. vm_compute. reflexivity. Qed.

(** Documents 2 and 3 tie under dice and keep their input order. *)
Example search_tie_keeps_order :
  Search.search [vec_ab; vec_a1; vec_b1] vec_ab Similarity.dice_sim = Ok [1; 2; 3]%Z
  ∧ Search.search [vec_b1; vec_a1; vec_ab] vec_ab Similarity.dice_sim = Ok [3; 1; 2]%Z.
Proof. split; vm_compute; reflexivity. Qed.

(** ** Where rounding shows

    The values below are those of the code on doubles.  They mark the limits
    of the exact model: the properties that follow speak of a computed number
    only where these effects cannot occur. *)

Module Rounding.

Import Binary64.
Local Open Scope float_scope.

(** [precision_at(1.0, [7, 8, 9], [9])] interpolates between (1, 1/3) and the
    initial upper bracket (0, 1) at recall 1.  The code's expression
    [m * x + (y1 - m * x1)] gives a double below 1/3; the two-point formula
    gives 1/3. *)
Example interpolate_rounds_below :
  (∃ v, interpolate 1 (1 / 3) 0 1 1 = Ok v ∧ PrimFloat.ltb v (1 / 3) = true)
  ∧ PrimFloat.eqb (two_point 1 (1 / 3) 0 1 1) (1 / 3) = true.
Proof. split; [eexists; split|]; vm_compute; reflexivity. Qed.

(** [precision_at(0.75, [1, ..., 9], [1, 2, 3, 9])] interpolates between
    (3/4, 1) and (1, 4/9) at recall 3/4 and returns a double above 1. *)
Example interpolate_rounds_above_one :
  ∃ v, interpolate (3 / 4) 1 1 (4 / 9) (3 / 4) = Ok v ∧ PrimFloat.ltb 1 v = true.
Proof. eexists; split; vm_compute; reflexivity. Qed.

(** With all weights in [0, 1], [overlap_sim({c: .3, b: .2, a: .1},
    {a: 1, b: 1, c: 1})] is above 1. *)
Example overlap_sim_rounds_above_one :
  ∃ v, overlap_sim [("c"%string, 3 / 10); ("b"%string, 2 / 10); ("a"%string, 1 / 10)]
                   [("a"%string, 1); ("b"%string, 1); ("c"%string, 1)] = Ok v
     ∧ PrimFloat.ltb 1 v = true.
Proof. eexists; split; vm_compute; reflexivity. Qed.

(** The dot product follows the key order of the dict it iterates over: the
    same pair of vectors gives two different doubles. *)
Example dictdot_depends_on_order :
  PrimFloat.ltb
    (dictdot [("a"%string, 1 / 10); ("b"%string, 2 / 10); ("c"%string, 3 / 10)]
             [("c"%string, 1); ("b"%string, 1); ("a"%string, 1)])
    (dictdot [("c"%string, 1); ("b"%string, 1); ("a"%string, 1)]
             [("a"%string, 1 / 10); ("b"%string, 2 / 10); ("c"%string, 3 / 10)])
  = true.
Proof. vm_compute. reflexivity. Qed.

(** Ten additions of the weight 0.1, as [compute_tf] makes them for a term
    that occurs ten times in a field, stay below 1. *)
Example repeated_addition_rounds_below :
  PrimFloat.ltb (py_sum (replicate 10 (1 / 10))) 1 = true.
Proof. vm_compute. reflexivity. Qed.

End Rounding.

(** ** Generic facts: the monad, division, sums *)

Lemma pydiv_ok (a b : Q) : ¬ b == 0 → pydiv a b = Ok (a / b).
Proof.
  intros Hb. unfold pydiv.
  destruct (Qeq_bool b 0) eqn:E; [|reflexivity].
  apply Qeq_bool_iff in E. contradiction.
Qed.

Lemma pydiv_zero (a b : Q) : b == 0 → pydiv a b = Raise ZeroDivisionError.
Proof.
  intros Hb. unfold pydiv. apply Qeq_bool_iff in Hb. by rewrite Hb.
Qed.

Lemma inject_Z_nonzero (n : Z) : n ≠ 0%Z → ¬ inject_Z n == 0.
Proof.
  intros Hn H. apply Hn. unfold Qeq in H. simpl in H. lia.
Qed.

(** ** Document frequencies *)

Module DocFreqFacts.
Import DocFreq.

Lemma add_words_elem (sec : list string) (words : gset string) (t : string) :
  t ∈ foldl (λ words word, {[word]} ∪ words) words sec ↔ t ∈ words ∨ t ∈ sec.
Proof.
  revert words. induction sec as [|w sec IH]; intros words; simpl.
  - set_solver.
  - rewrite IH. set_solver.
Qed.

Lemma doc_words_contains (doc : Document) (t : string) :
  t ∈ doc_words doc ↔ contains t doc.
Proof.
  unfold doc_words, contains, sections. simpl.
  rewrite !add_words_elem, !elem_of_app. set_solver.
Qed.

Lemma incr_get (freq : Counter) (w t : string) :
  Counter_get (incr freq w) t
  = (Counter_get freq t + if decide (t = w) then 1 else 0)%Z.
Proof.
  unfold incr, Counter_get. destruct (decide (t = w)) as [->|Hne].
  - by rewrite lookup_insert_eq.
  - rewrite lookup_insert_ne by done. lia.
Qed.

Lemma incr_all_get (l : list string) (freq : Counter) (t : string) :
  NoDup l →
  Counter_get (foldl incr freq l) t
  = (Counter_get freq t + if decide (t ∈ l) then 1 else 0)%Z.
Proof.
  revert freq. induction l as [|w l IH]; intros freq Hnd; cbn [foldl].
  - destruct (decide (t ∈ [])) as [Hin|_]; [by apply not_elem_of_nil in Hin|lia].
  - apply NoDup_cons in Hnd as [Hw Hnd]. rewrite IH, incr_get by done.
    destruct (decide (t = w)) as [Heq|Hne], (decide (t ∈ l)) as [Hin|Hin],
      (decide (t ∈ w :: l)) as [Hin'|Hin']; subst; try lia; try done.
    + exfalso. apply Hin'. left.
    + exfalso. apply Hin'. by right.
    + exfalso. by apply elem_of_cons in Hin' as [?|?].
Qed.

Lemma incr_all_dom (l : list string) (freq : Counter) (t : string) :
  is_Some (foldl incr freq l !! t) ↔ is_Some (freq !! t) ∨ t ∈ l.
Proof.
  revert freq. induction l as [|w l IH]; intros freq; simpl.
  - set_solver.
  - rewrite IH. unfold incr. rewrite lookup_insert_is_Some, elem_of_cons.
    destruct (decide (w = t)); naive_solver.
Qed.

(** The loop over the corpus, from any table built so far. *)
Lemma docs_loop_get (docs : list Document) (freq : Counter) (t : string) :
  Counter_get
    (foldl (λ freq doc, foldl incr freq (elements (doc_words doc))) freq docs) t
  = (Counter_get freq t + Z.of_nat (length (containing t docs)))%Z.
Proof.
  revert freq. induction docs as [|doc docs IH]; intros freq; simpl.
  - unfold containing. simpl. lia.
  - rewrite IH, incr_all_get by apply NoDup_elements.
    unfold containing. rewrite filter_cons.
    pose proof (doc_words_contains doc t) as Hw.
    rewrite <- elem_of_elements in Hw.
    destruct (decide (contains t doc)) as [Hc|Hc],
      (decide (t ∈ elements (doc_words doc))) as [Hin|Hin];
      cbn [length]; try lia; tauto.
Qed.

Lemma docs_loop_dom (docs : list Document) (freq : Counter) (t : string) :
  is_Some
    (foldl (λ freq doc, foldl incr freq (elements (doc_words doc))) freq docs !! t)
  ↔ is_Some (freq !! t) ∨ containing t docs ≠ [].
Proof.
  revert freq. induction docs as [|doc docs IH]; intros freq; simpl.
  - unfold containing. simpl. naive_solver.
  - rewrite IH, incr_all_dom, elem_of_elements, doc_words_contains.
    unfold containing. rewrite filter_cons.
    destruct (decide (contains t doc)); naive_solver.
Qed.

End DocFreqFacts.

(** C7.  [compute_doc_freqs] maps each term to the number of documents of the
    corpus that contain it in at least one of the four fields, however often
    it occurs inside one document; a term is a key of the table exactly when
    some document contains it, and every count stored in the table lies
    between 1 and the size of the corpus. *)
Theorem compute_doc_freqs_counts (docs : list Document) (t : string) :
  Counter_get (DocFreq.compute_doc_freqs docs) t
    = Z.of_nat (length (DocFreq.containing t docs))
  ∧ (is_Some (DocFreq.compute_doc_freqs docs !! t)
     ↔ ∃ doc, doc ∈ docs ∧ DocFreq.contains t doc)
  ∧ ∀ n : Z, DocFreq.compute_doc_freqs docs !! t = Some n →
      n = Z.of_nat (length (DocFreq.containing t docs))
      ∧ (1 <= n <= Z.of_nat (length docs))%Z.
Proof.
  pose proof (DocFreqFacts.docs_loop_get docs ∅ t) as Hget.
  pose proof (DocFreqFacts.docs_loop_dom docs ∅ t) as Hdom.
  fold (DocFreq.compute_doc_freqs docs) in Hget, Hdom.
  unfold Counter_get at 2 in Hget. rewrite lookup_empty in Hget. simpl in Hget.
  split; [lia|]. split.
  - rewrite Hdom. split.
    + intros [[? Hx]|Hne]; [by rewrite lookup_empty in Hx|].
      destruct (DocFreq.containing t docs) as [|doc l] eqn:E; [done|].
      exists doc. apply and_comm.
      apply (list_elem_of_filter (DocFreq.contains t) docs doc).
      unfold DocFreq.containing in E. rewrite E. left.
    + intros (doc & Hin & Hc). right. intros E.
      assert (doc ∈ DocFreq.containing t docs) as Hd
        by (by apply list_elem_of_filter).
      rewrite E in Hd. by apply not_elem_of_nil in Hd.
  - intros n Hn.
    assert (n = Z.of_nat (length (DocFreq.containing t docs))) as ->.
    { unfold Counter_get in Hget. rewrite Hn in Hget. simpl in Hget. lia. }
    split; [done|].
    assert (DocFreq.containing t docs ≠ []) as Hne.
    { destruct (proj1 Hdom (mk_is_Some _ _ Hn)) as [[? Hx]|?]; [|done].
      by rewrite lookup_empty in Hx. }
    pose proof (length_filter (DocFreq.contains t) docs) as Hle.
    fold (DocFreq.containing t docs) in Hle.
    destruct (DocFreq.containing t docs); [done|]. simpl in *. lia.
Qed.

Lemma compute_doc_freqs_counts_witness :
  Counter_get (DocFreq.compute_doc_freqs [doc_smith; doc_smith]) "parsing" = 2%Z
  ∧ ∀ n : Z, DocFreq.compute_doc_freqs [doc_smith; doc_smith] !! "tables"%string = Some n →
      (1 <= n <= 2)%Z.
Proof.
  split.
  - rewrite (proj1 (compute_doc_freqs_counts [doc_smith; doc_smith] "parsing")).
    reflexivity.
  - intros n Hn.
    apply (proj2 (proj2 (compute_doc_freqs_counts [doc_smith; doc_smith] "tables")) n Hn).
Defined.

(** ** Vectorizers *)

Module VectorizeFacts.
Import Vectorize.

Lemma keys_NoDup (d : SparseVector) : NoDup (keys d).
Proof. apply NoDup_fst_map_to_list. Qed.

Lemma elem_of_keys (d : SparseVector) (k : string) : k ∈ keys d ↔ is_Some (d !! k).
Proof.
  unfold keys. rewrite list_elem_of_fmap. split.
  - intros ([k' v] & -> & Hin). apply elem_of_map_to_list in Hin. by exists v.
  - intros [v Hv]. exists (k, v). split; [done|]. by apply elem_of_map_to_list.
Qed.

Lemma tfidf_step_ok (doc_freqs : Counter) (idf : SparseVector) (i : string) (val : Q) :
  idf !! i = Some val →
  tfidf_step doc_freqs idf i = Ok (<[i := idf_weight doc_freqs i val]> idf).
Proof.
  intros Hi. unfold tfidf_step, dict_getitem, idf_weight. rewrite Hi.
  cbn [mbind result_bind].
  destruct (bool_decide (Counter_get doc_freqs i ≠ 0%Z)) eqn:E; [|done].
  apply bool_decide_eq_true in E.
  by rewrite pydiv_ok by (by apply inject_Z_nonzero).
Qed.

(** The loop rewrites the keys it visits and leaves the others alone. *)
Lemma tfidf_loop (doc_freqs : Counter) (ks : list string) (m : SparseVector) :
  NoDup ks →
  (∀ k, k ∈ ks → is_Some (m !! k)) →
  ∃ v, for_each (tfidf_step doc_freqs) ks m = Ok v
     ∧ ∀ t, v !! t = if decide (t ∈ ks)
                     then idf_weight doc_freqs t <$> m !! t
                     else m !! t.
Proof.
  revert m. induction ks as [|k ks IH]; intros m Hnd Hdom; cbn [for_each].
  - exists m. split; [done|]. intros t.
    destruct (decide (t ∈ [])) as [Hin|_]; [by apply not_elem_of_nil in Hin|done].
  - apply NoDup_cons in Hnd as [Hk Hnd].
    destruct (Hdom k) as [val Hval]; [left|].
    rewrite (tfidf_step_ok _ _ _ _ Hval). cbn [mbind result_bind].
    destruct (IH (<[k := idf_weight doc_freqs k val]> m) Hnd) as (v & Hv & Hlook).
    { intros k' Hk'. apply lookup_insert_is_Some.
      destruct (decide (k = k')); [by left|right]. split; [done|].
      apply Hdom. by right. }
    exists v. split; [done|]. intros t. rewrite Hlook.
    destruct (decide (t = k)) as [->|Hne].
    + rewrite decide_False by done. rewrite decide_True by left.
      by rewrite lookup_insert_eq, Hval.
    + rewrite lookup_insert_ne by done.
      destruct (decide (t ∈ ks)) as [Hin|Hin].
      * by rewrite decide_True by (by right).
      * rewrite decide_False; [done|]. by intros [?|?]%elem_of_cons.
Qed.

Lemma compute_tfidf_lookup (doc : Document) (doc_freqs : Counter) (weights : TermWeights) :
  ∃ v, compute_tfidf doc doc_freqs weights = Ok v
     ∧ ∀ t, v !! t
            = idf_weight doc_freqs t <$> compute_tf doc doc_freqs weights !! t.
Proof.
  unfold compute_tfidf.
  set (tf := compute_tf doc doc_freqs weights).
  destruct (tfidf_loop doc_freqs (keys tf) tf) as (v & Hv & Hlook).
  - apply keys_NoDup.
  - intros k. apply elem_of_keys.
  - exists v. split; [done|]. intros t. rewrite Hlook.
    destruct (decide (t ∈ keys tf)) as [Hin|Hin]; [done|].
    rewrite elem_of_keys in Hin. apply eq_None_not_Some in Hin.
    by rewrite Hin.
Qed.

Lemma add_weight_positive (w : Q) (words : list string) (vec : SparseVector) :
  0 < w →
  weights_in (λ v, 0 < v) vec →
  weights_in (λ v, 0 < v) (foldl (add_weight w) vec words).
Proof.
  intros Hw. revert vec. induction words as [|word words IH]; intros vec Hvec;
    cbn [foldl]; [done|].
  apply IH. intros k v. unfold add_weight.
  destruct (decide (word = k)) as [->|Hne].
  - rewrite lookup_insert_eq. intros [= <-]. unfold dict_get.
    destruct (vec !! k) as [v0|] eqn:E; simpl.
    + pose proof (Hvec k v0 E) as Hv0. simpl in Hv0. lra.
    + lra.
  - rewrite lookup_insert_ne by done. apply Hvec.
Qed.

Lemma set_one_all (words : list string) (vec : SparseVector) :
  weights_in (λ v, v = 1) vec →
  weights_in (λ v, v = 1) (foldl set_one vec words).
Proof.
  revert vec. induction words as [|word words IH]; intros vec Hvec;
    cbn [foldl]; [done|].
  apply IH. intros k v. unfold set_one.
  destruct (decide (word = k)) as [->|Hne].
  - rewrite lookup_insert_eq. by intros [= <-].
  - rewrite lookup_insert_ne by done. apply Hvec.
Qed.

Lemma compute_tf_positive (doc : Document) (doc_freqs : Counter) (weights : TermWeights) :
  positive_weights weights →
  weights_in (λ v, 0 < v) (compute_tf doc doc_freqs weights).
Proof.
  intros (Ha & Ht & Hk & Hb). unfold compute_tf.
  repeat apply add_weight_positive; try done.
Qed.

Lemma idf_weight_zero (doc_freqs : Counter) (t : string) (w : Q) :
  0 < w → idf_weight doc_freqs t w == 0 ↔ Counter_get doc_freqs t = 0%Z.
Proof.
  intros Hw. unfold idf_weight.
  destruct (bool_decide (Counter_get doc_freqs t ≠ 0%Z)) eqn:E.
  - apply bool_decide_eq_true in E. split; [|done].
    intros Hz. exfalso.
    pose proof (inject_Z_nonzero _ E) as Hnz.
    assert (w == w / inject_Z (Counter_get doc_freqs t)
                 * inject_Z (Counter_get doc_freqs t)) as Hw' by (by field).
    rewrite Hz in Hw'. lra.
  - apply bool_decide_eq_false in E. split; [|reflexivity].
    intros _. destruct (decide (Counter_get doc_freqs t = 0%Z)); [done|].
    by exfalso.
Qed.

End VectorizeFacts.

(** C10.  [compute_tf] and [compute_boolean] never read their [doc_freqs]
    argument: run on the same document and weights with two different
    document-frequency tables, each returns the same vector. *)
Theorem tf_boolean_ignore_doc_freqs
    (doc : Document) (weights : TermWeights) (doc_freqs1 doc_freqs2 : Counter) :
  Vectorize.compute_tf doc doc_freqs1 weights
    = Vectorize.compute_tf doc doc_freqs2 weights
  ∧ Vectorize.compute_boolean doc doc_freqs1 weights
    = Vectorize.compute_boolean doc doc_freqs2 weights.
Proof. split; reflexivity. Qed.

(** C4.  [compute_tfidf] raises nothing: it returns a vector with the keys of
    the raw-weighted-frequency vector, in which a term's weight is its
    accumulated weight divided by its document frequency, and 0 when that
    frequency is 0.  A term absent from the table reads as frequency 0. *)
Theorem compute_tfidf_divides
    (doc : Document) (doc_freqs : Counter) (weights : TermWeights) :
  ∃ vec, Vectorize.compute_tfidf doc doc_freqs weights = Ok vec
  ∧ ∀ t : string,
      (doc_freqs !! t = None → Counter_get doc_freqs t = 0%Z)
      ∧ match Vectorize.compute_tf doc doc_freqs weights !! t with
        | Some w =>
          vec !! t = Some (if bool_decide (Counter_get doc_freqs t = 0%Z) then 0
                           else w / inject_Z (Counter_get doc_freqs t))
        | None => vec !! t = None
        end.
Proof.
  destruct (VectorizeFacts.compute_tfidf_lookup doc doc_freqs weights)
    as (vec & Hvec & Hlook).
  exists vec. split; [done|]. intros t. split.
  - intros Hnone. unfold Counter_get. by rewrite Hnone.
  - rewrite Hlook. destruct (Vectorize.compute_tf doc doc_freqs weights !! t) as [w|];
      cbn [fmap option_fmap option_map]; [|done].
    unfold Vectorize.idf_weight.
    destruct (decide (Counter_get doc_freqs t = 0%Z)) as [Hz|Hz].
    + rewrite bool_decide_eq_false_2 by (intros Hn; by apply Hn).
      by rewrite bool_decide_eq_true_2.
    + rewrite bool_decide_eq_true_2 by done.
      by rewrite bool_decide_eq_false_2.
Qed.


Lemma compute_tfidf_divides_witness :
  ∃ vec, Vectorize.compute_tfidf doc_smith ∅ weights_unit = Ok vec
       ∧ vec !! "smith"%string = Some 0.
Proof.
  destruct (compute_tfidf_divides doc_smith ∅ weights_unit) as (vec & Hvec & Hlook).
  exists vec. split; [exact Hvec|].
  destruct (Hlook "smith"%string) as [_ H].
  assert (Vectorize.compute_tf doc_smith ∅ weights_unit !! "smith"%string = Some 1) as E
    by (vm_compute; reflexivity).
  rewrite E in H. exact H.
Defined.

(** C6, as stated, fails.  With the non-negative weights (0, 1, 1, 1) the
    raw-weighted-frequency vector of a document keeps its author term as a
    key of weight 0; and with weights (1, 1, 1, 1) and a table in which the
    terms have frequency 0 (here the empty table), the inverse-document-
    frequency variant keeps every term as a key of weight 0. *)
Lemma zero_weight_keys_are_kept :
  Vectorize.nonneg_weights weights_no_author
  ∧ Vectorize.compute_tf doc_smith ∅ weights_no_author !! "smith"%string = Some 0
  ∧ Vectorize.nonneg_weights weights_unit
  ∧ ∃ vec, Vectorize.compute_tfidf doc_smith ∅ weights_unit = Ok vec
         ∧ vec !! "parsing"%string = Some 0.
Proof.
  split; [|split; [|split]].
  - unfold Vectorize.nonneg_weights. simpl. lra.
  - vm_compute. reflexivity.
  - unfold Vectorize.nonneg_weights. simpl. lra.
  - eexists. split; [vm_compute; reflexivity|]. vm_compute. reflexivity.
Qed.

(** C6, amended.  The boolean scheme stores weight 1 at every key.  With
    strictly positive field weights the raw-weighted-frequency scheme stores
    a strictly positive weight at every key.  The inverse-document-frequency
    variant returns a vector that has exactly the keys of the raw-weighted-
    frequency vector: a term of document frequency 0 is kept, as a key of
    weight 0; and with strictly positive field weights the weight at a key
    is 0 exactly when the term's document frequency is 0. *)
Theorem vector_weights_by_scheme
    (doc : Document) (doc_freqs : Counter) (weights : TermWeights) :
  (∀ t v, Vectorize.compute_boolean doc doc_freqs weights !! t = Some v → v = 1)
  ∧ (Vectorize.positive_weights weights →
     ∀ t v, Vectorize.compute_tf doc doc_freqs weights !! t = Some v → 0 < v)
  ∧ ∃ vec, Vectorize.compute_tfidf doc doc_freqs weights = Ok vec
      ∧ (∀ t, is_Some (vec !! t)
              ↔ is_Some (Vectorize.compute_tf doc doc_freqs weights !! t))
      ∧ (∀ t, is_Some (Vectorize.compute_tf doc doc_freqs weights !! t) →
              Counter_get doc_freqs t = 0%Z → vec !! t = Some 0)
      ∧ (Vectorize.positive_weights weights →
         ∀ t v, vec !! t = Some v → (v == 0 ↔ Counter_get doc_freqs t = 0%Z)).
Proof.
  split; [|split].
  - change (weights_in (λ v, v = 1)
      (Vectorize.compute_boolean doc doc_freqs weights)).
    unfold Vectorize.compute_boolean.
    repeat apply VectorizeFacts.set_one_all. intros k v. by rewrite lookup_empty.
  - intros Hpos.
    exact (VectorizeFacts.compute_tf_positive doc doc_freqs weights Hpos).
  - destruct (VectorizeFacts.compute_tfidf_lookup doc doc_freqs weights)
      as (vec & Hvec & Hlook).
    exists vec. split; [exact Hvec|]. split; [|split].
    + intros t. rewrite Hlook. apply fmap_is_Some.
    + intros t [w Hw] Hz. rewrite Hlook, Hw. cbn [fmap option_fmap option_map].
      unfold Vectorize.idf_weight.
      by rewrite bool_decide_eq_false_2 by (intros Hn; by apply Hn).
    + intros Hpos t v Hv. rewrite Hlook in Hv.
      destruct (Vectorize.compute_tf doc doc_freqs weights !! t) as [w|] eqn:E;
        [|done].
      injection Hv as <-.
      apply VectorizeFacts.idf_weight_zero.
      exact (VectorizeFacts.compute_tf_positive doc doc_freqs weights Hpos t w E).
Qed.

Lemma vector_weights_by_scheme_witness :
  0 < 2
  ∧ ∃ vec, Vectorize.compute_tfidf doc_smith ∅ weights_unit = Ok vec
         ∧ vec !! "parsing"%string = Some 0
         ∧ (0 == 0 ↔ Counter_get ∅ "parsing" = 0%Z).
Proof.
  assert (Vectorize.positive_weights weights_unit) as Hpos.
  { unfold Vectorize.positive_weights. simpl. lra. }
  destruct (vector_weights_by_scheme doc_smith ∅ weights_unit)
    as (_ & Htf & vec & Hvec & _ & Hkept & Hzero).
  assert (vec !! "parsing"%string = Some 0) as Hp.
  { apply Hkept; [|reflexivity]. vm_compute. by eexists. }
  split.
  - apply (Htf Hpos "parsing"%string 2). vm_compute. reflexivity.
  - exists vec. split; [exact Hvec|]. split; [exact Hp|].
    exact (Hzero Hpos "parsing"%string 0 Hp).
Defined.

(** ** Sums over lists and over dict values *)

Module SumFacts.

Lemma foldl_plus (l : list Q) (acc : Q) : foldl Qplus acc l == acc + sum l.
Proof.
  unfold sum. revert acc. induction l as [|a l IH]; intros acc; cbn [foldl].
  - lra.
  - rewrite (IH (acc + a)), (IH (0 + a)). lra.
Qed.

Lemma sum_nil : sum [] == 0.
Proof. reflexivity. Qed.

Lemma sum_cons (a : Q) (l : list Q) : sum (a :: l) == a + sum l.
Proof. unfold sum at 1. cbn [foldl]. rewrite foldl_plus. lra. Qed.

Lemma sum_Permutation (l l' : list Q) : l ≡ₚ l' → sum l == sum l'.
Proof.
  induction 1 as [|a l l' _ IH|a b l|l l' l'' _ IH1 _ IH2].
  - reflexivity.
  - rewrite !sum_cons, IH. reflexivity.
  - rewrite !sum_cons. lra.
  - by rewrite IH1.
Qed.

Lemma sum_nonneg (l : list Q) : Forall (λ v, 0 <= v) l → 0 <= sum l.
Proof.
  induction 1 as [|a l Ha _ IH].
  - rewrite sum_nil. lra.
  - rewrite sum_cons. lra.
Qed.

Lemma sum_map_le {A : Type} (f g : A → Q) (l : list A) :
  (∀ a, a ∈ l → f a <= g a) → sum (map f l) <= sum (map g l).
Proof.
  induction l as [|a l IH]; intros Hfg; cbn [map].
  - rewrite sum_nil. lra.
  - rewrite !sum_cons.
    assert (f a <= g a) by (apply Hfg; left).
    assert (sum (map f l) <= sum (map g l)) by (apply IH; intros; apply Hfg; by right).
    lra.
Qed.

Lemma sum_map_nonneg {A : Type} (f : A → Q) (l : list A) :
  (∀ a, a ∈ l → 0 <= f a) → 0 <= sum (map f l).
Proof.
  intros Hf. apply sum_nonneg, Forall_forall. intros v Hv.
  apply list_elem_of_fmap in Hv as (a & -> & Ha). by apply Hf.
Qed.

Lemma dict_get_Some (d : SparseVector) (k : string) (v : Q) :
  d !! k = Some v → dict_get d k = v.
Proof. intros H. unfold dict_get. by rewrite H. Qed.

Lemma dict_get_None (d : SparseVector) (k : string) :
  d !! k = None → dict_get d k = 0.
Proof. intros H. unfold dict_get. by rewrite H. Qed.

(** Reading every key of a dict yields its values. *)
Lemma map_get_keys (d : SparseVector) : map (dict_get d) (keys d) = values d.
Proof.
  unfold keys, values.
  assert (∀ p, p ∈ map_to_list d → dict_get d p.1 = p.2) as Hall.
  { intros [k v] Hin. apply elem_of_map_to_list in Hin. by apply dict_get_Some. }
  induction (map_to_list d) as [|p l IH]; [done|].
  cbn [fmap list_fmap map]. f_equal.
  - apply Hall. left.
  - apply IH. intros q Hq. apply Hall. by right.
Qed.

Lemma sum_values_delete (d : SparseVector) (k : string) :
  sum (values d) == dict_get d k + sum (values (delete k d)).
Proof.
  destruct (d !! k) as [v|] eqn:E.
  - rewrite (dict_get_Some _ _ _ E). unfold values.
    rewrite <- sum_cons. apply sum_Permutation.
    change (v :: (map_to_list (delete k d)).*2)
      with (((k, v) :: map_to_list (delete k d)).*2).
    apply fmap_Permutation. symmetry. by apply map_to_list_delete.
  - rewrite (dict_get_None _ _ E), delete_id by done. lra.
Qed.

Lemma weights_in_delete (P : Q → Prop) (d : SparseVector) (k : string) :
  weights_in P d → weights_in P (delete k d).
Proof.
  intros Hd k' v Hv. apply lookup_delete_Some in Hv as [_ Hv]. by apply (Hd k').
Qed.

Lemma dict_get_in (P : Q → Prop) (d : SparseVector) (k : string) :
  P 0 → weights_in P d → P (dict_get d k).
Proof.
  intros H0 Hd. unfold dict_get. destruct (d !! k) as [v|] eqn:E; simpl; [|done].
  by apply (Hd k).
Qed.

(** Reading distinct keys of a dict with non-negative weights never adds up
    to more than all of its weights. *)
Lemma sum_get_le_values (ks : list string) (d : SparseVector) :
  NoDup ks →
  weights_in (λ v, 0 <= v) d →
  sum (map (dict_get d) ks) <= sum (values d).
Proof.
  revert d. induction ks as [|k ks IH]; intros d Hnd Hd; cbn [map].
  - rewrite sum_nil. apply sum_nonneg, Forall_forall. intros v Hv.
    apply list_elem_of_fmap in Hv as ([k v'] & -> & Hin).
    apply elem_of_map_to_list in Hin. by apply (Hd k).
  - apply NoDup_cons in Hnd as [Hk Hnd].
    rewrite sum_cons, (sum_values_delete d k).
    assert (map (dict_get d) ks = map (dict_get (delete k d)) ks) as ->.
    { apply map_ext_in. intros k' Hk'%list_elem_of_In. unfold dict_get.
      rewrite lookup_delete_ne; [done|]. by intros ->. }
    pose proof (IH (delete k d) Hnd (weights_in_delete _ _ _ Hd)). lra.
Qed.

End SumFacts.

(** ** Similarity *)

Module SimilarityFacts.
Import Similarity SumFacts.

Lemma dot_keys_NoDup (x y : SparseVector) :
  NoDup (if bool_decide (size x < size y)%nat then keys x else keys y).
Proof. destruct (bool_decide _); apply VectorizeFacts.keys_NoDup. Qed.

Lemma presence_unit_range (x : SparseVector) :
  weights_in presence x → weights_in unit_range x.
Proof.
  intros Hx k v Hk. destruct (Hx k v Hk) as [H|H]; unfold unit_range; lra.
Qed.

Lemma unit_range_nonneg (x : SparseVector) :
  weights_in unit_range x → weights_in nonneg x.
Proof. intros Hx k v Hv. by destruct (Hx k v Hv). Qed.

Lemma sum_map_scale {A : Type} (f : A → Q) (s : Q) (l : list A) :
  sum (map (λ a, f a * s) l) == sum (map f l) * s.
Proof.
  induction l as [|a l IH]; cbn [map].
  - rewrite !sum_nil. lra.
  - rewrite !sum_cons, IH. lra.
Qed.

Lemma get_le_values (y : SparseVector) (k : string) :
  weights_in nonneg y → dict_get y k <= sum (values y).
Proof.
  intros Hy. pose proof (sum_get_le_values [k] y) as H.
  cbn [map] in H. rewrite sum_cons, sum_nil in H.
  assert (NoDup [k]) as Hnd by (apply NoDup_singleton).
  specialize (H Hnd Hy). lra.
Qed.

Lemma dictdot_nonneg (x y : SparseVector) :
  weights_in nonneg x → weights_in nonneg y → 0 <= dictdot x y.
Proof.
  intros Hx Hy. unfold dictdot. apply sum_map_nonneg. intros k _.
  pose proof (dict_get_in nonneg x k (Qle_refl 0) Hx) as Hxk.
  pose proof (dict_get_in nonneg y k (Qle_refl 0) Hy) as Hyk.
  unfold nonneg in *. nra.
Qed.

(** The dot product of non-negative vectors is at most the product of their
    weight totals. *)
Lemma dictdot_le_product (x y : SparseVector) :
  weights_in nonneg x → weights_in nonneg y →
  dictdot x y <= sum (values x) * sum (values y).
Proof.
  intros Hx Hy. unfold dictdot.
  set (ks := if bool_decide (size x < size y)%nat then keys x else keys y).
  assert (sum (map (λ key, dict_get x key * dict_get y key) ks)
          <= sum (map (λ key, dict_get x key * sum (values y)) ks)) as H1.
  { apply sum_map_le. intros k _.
    pose proof (dict_get_in nonneg x k (Qle_refl 0) Hx) as Hxk.
    pose proof (get_le_values y k Hy) as Hyk.
    unfold nonneg in *. nra. }
  rewrite sum_map_scale in H1.
  pose proof (sum_get_le_values ks x (dot_keys_NoDup x y) Hx) as H2.
  assert (0 <= sum (values y)) as H3.
  { pose proof (get_le_values y "" Hy).
    pose proof (dict_get_in nonneg y "" (Qle_refl 0) Hy) as H0.
    unfold nonneg in H0. lra. }
  nra.
Qed.

(** With weights in [0, 1] a product of two weights is at most either. *)
Lemma dictdot_le_sums (x y : SparseVector) :
  weights_in unit_range x → weights_in unit_range y →
  dictdot x y <= sum (values x) ∧ dictdot x y <= sum (values y).
Proof.
  intros Hx Hy. unfold dictdot.
  set (ks := if bool_decide (size x < size y)%nat then keys x else keys y).
  assert (unit_range 0) as H0 by (unfold unit_range; lra).
  split.
  - eapply Qle_trans;
      [|apply (sum_get_le_values ks x (dot_keys_NoDup x y)), unit_range_nonneg, Hx].
    apply sum_map_le. intros k _.
    pose proof (dict_get_in unit_range x k H0 Hx) as Hxk.
    pose proof (dict_get_in unit_range y k H0 Hy) as Hyk.
    unfold unit_range in *. nra.
  - eapply Qle_trans;
      [|apply (sum_get_le_values ks y (dot_keys_NoDup x y)), unit_range_nonneg, Hy].
    apply sum_map_le. intros k _.
    pose proof (dict_get_in unit_range x k H0 Hx) as Hxk.
    pose proof (dict_get_in unit_range y k H0 Hy) as Hyk.
    unfold unit_range in *. nra.
Qed.

Lemma Qeq_bool_false (a b : Q) : Qeq_bool a b = false ↔ ¬ a == b.
Proof.
  rewrite <- Qeq_bool_iff. destruct (Qeq_bool a b); split; done.
Qed.

Lemma py_min_cases (a b : Q) :
  (py_min a b = a ∧ a <= b) ∨ (py_min a b = b ∧ b < a).
Proof. unfold py_min. destruct (Qlt_le_dec b a); [right|left]; done. Qed.

Lemma div_unit_range (n d : Q) : 0 <= n → 0 < d → n <= d → 0 <= n / d ∧ n / d <= 1.
Proof.
  intros Hn Hd Hnd. split.
  - apply Qle_shift_div_l; [done|]. lra.
  - apply Qle_shift_div_r; [done|]. lra.
Qed.

Lemma div_nonneg (n d : Q) : 0 <= n → 0 < d → 0 <= n / d.
Proof. intros Hn Hd. apply Qle_shift_div_l; [done|]. lra. Qed.

(** A non-zero dot product of non-negative vectors is positive, and so are
    both weight totals. *)
Lemma positive_totals (x y : SparseVector) :
  weights_in nonneg x → weights_in nonneg y → ¬ dictdot x y == 0 →
  0 < dictdot x y ∧ 0 < sum (values x) ∧ 0 < sum (values y).
Proof.
  intros Hx Hy Hnz.
  pose proof (dictdot_nonneg x y Hx Hy) as H0.
  pose proof (dictdot_le_product x y Hx Hy) as Hle.
  assert (0 <= sum (values x)) as Hsx.
  { pose proof (get_le_values x "" Hx).
    pose proof (dict_get_in nonneg x "" (Qle_refl 0) Hx) as Hg.
    unfold nonneg in Hg. lra. }
  assert (0 <= sum (values y)) as Hsy.
  { pose proof (get_le_values y "" Hy).
    pose proof (dict_get_in nonneg y "" (Qle_refl 0) Hy) as Hg.
    unfold nonneg in Hg. lra. }
  assert (0 < dictdot x y) as Hpos.
  { destruct (Qlt_le_dec 0 (dictdot x y)) as [|Hle0]; [done|].
    exfalso. apply Hnz. lra. }
  split; [done|]. split.
  - destruct (Qlt_le_dec 0 (sum (values x))) as [|Hle0]; [done|]. exfalso. nra.
  - destruct (Qlt_le_dec 0 (sum (values y))) as [|Hle0]; [done|]. exfalso. nra.
Qed.

End SimilarityFacts.


Lemma singleton_weights_in (P : Q → Prop) (k : string) (v : Q) :
  P v → weights_in P ({[k := v]} : SparseVector).
Proof. intros Hv k' v' [_ <-]%lookup_singleton_Some. exact Hv. Qed.

(** C8.  When the dot product is not 0 and [sum(x) + sum(y) - dot] is 0,
    [jaccard_sim] does not divide: it returns the constant 1/10000000, which
    is positive and small; when the dot product is 0 it returns 0. *)
Theorem jaccard_sim_sentinel (x y : SparseVector) :
  (¬ Similarity.dictdot x y == 0 →
   sum (values x) + sum (values y) - Similarity.dictdot x y == 0 →
   Similarity.jaccard_sim x y = Ok (1 / 10000000)
   ∧ 0 < 1 / 10000000 ∧ 1 / 10000000 < 1 # 1000000)
  ∧ (Similarity.dictdot x y == 0 → Similarity.jaccard_sim x y = Ok 0).
Proof.
  unfold Similarity.jaccard_sim. split.
  - intros Hnz Hden.
    apply SimilarityFacts.Qeq_bool_false in Hnz. apply Qeq_bool_iff in Hden.
    rewrite Hnz, Hden. split; [reflexivity|]. split; reflexivity.
  - intros Hz. apply Qeq_bool_iff in Hz. by rewrite Hz.
Qed.

Lemma jaccard_sim_sentinel_witness :
  weights_in Similarity.nonneg vec_a2
  ∧ (Similarity.jaccard_sim vec_a2 vec_a2 = Ok (1 / 10000000)
     ∧ 0 < 1 / 10000000 ∧ 1 / 10000000 < 1 # 1000000)
  ∧ Similarity.jaccard_sim vec_a2 vec_b1 = Ok 0.
Proof.
  split; [|split].
  - apply singleton_weights_in. unfold Similarity.nonneg. lra.
  - apply (jaccard_sim_sentinel vec_a2 vec_a2).
    + vm_compute. discriminate.
    + vm_compute. reflexivity.
  - apply (jaccard_sim_sentinel vec_a2 vec_b1). vm_compute. reflexivity.
Defined.

(** C3, as stated, fails.  For the one-term vector [{a: 3}] taken twice the
    weights are non-negative and the jaccard denominator is not 0, yet dice
    and overlap return 3 and jaccard returns -3. *)
Lemma similarity_leaves_unit_interval :
  weights_in Similarity.nonneg vec_a3
  ∧ ¬ sum (values vec_a3) + sum (values vec_a3)
      - Similarity.dictdot vec_a3 vec_a3 == 0
  ∧ (∃ d, Similarity.dice_sim vec_a3 vec_a3 = Ok d ∧ d == 3 ∧ ¬ d <= 1)
  ∧ (∃ j, Similarity.jaccard_sim vec_a3 vec_a3 = Ok j ∧ j == -3 ∧ ¬ 0 <= j)
  ∧ (∃ o, Similarity.overlap_sim vec_a3 vec_a3 = Ok o ∧ o == 3 ∧ ¬ o <= 1).
Proof.
  split; [|split; [|split; [|split]]].
  - apply singleton_weights_in. unfold Similarity.nonneg. lra.
  - vm_compute. discriminate.
  - eexists. split; [vm_compute; reflexivity|]. split; [reflexivity|].
    vm_compute. intros H. by apply H.
  - eexists. split; [vm_compute; reflexivity|]. split; [reflexivity|].
    vm_compute. intros H. by apply H.
  - eexists. split; [vm_compute; reflexivity|]. split; [reflexivity|].
    vm_compute. intros H. by apply H.
Qed.

(** C3, amended.  On vectors with non-negative weights the three functions
    raise nothing, and dice and overlap return a number that is at least 0.
    On vectors whose weights are all 0 or 1, as the boolean scheme produces
    them, each of [dice_sim], [jaccard_sim] and [overlap_sim] returns a
    number in [0, 1].  (For weights 0 and 1 the sums and the dot product are
    exact whole numbers, and a quotient of two of them with the smaller on
    top cannot round above 1; for other weights in [0, 1] the sums are
    rounded and a quotient can come out as a double above 1, see
    [Rounding.overlap_sim_rounds_above_one].) *)
Theorem similarity_ranges (x y : SparseVector) :
  (weights_in Similarity.nonneg x → weights_in Similarity.nonneg y →
   (∃ d, Similarity.dice_sim x y = Ok d ∧ 0 <= d)
   ∧ (∃ j, Similarity.jaccard_sim x y = Ok j)
   ∧ (∃ o, Similarity.overlap_sim x y = Ok o ∧ 0 <= o))
  ∧ (weights_in presence x → weights_in presence y →
     (∃ d, Similarity.dice_sim x y = Ok d ∧ 0 <= d ∧ d <= 1)
     ∧ (∃ j, Similarity.jaccard_sim x y = Ok j ∧ 0 <= j ∧ j <= 1)
     ∧ (∃ o, Similarity.overlap_sim x y = Ok o ∧ 0 <= o ∧ o <= 1)).
Proof.
  unfold Similarity.dice_sim, Similarity.jaccard_sim, Similarity.overlap_sim.
  split.
  - intros Hx Hy.
    destruct (Qeq_bool (Similarity.dictdot x y) 0) eqn:E.
    { split; [|split]; eexists; (split || idtac); try reflexivity; lra. }
    apply SimilarityFacts.Qeq_bool_false in E.
    destruct (SimilarityFacts.positive_totals x y Hx Hy E) as (Hd & Hsx & Hsy).
    split; [|split].
    + rewrite pydiv_ok by lra. eexists. split; [reflexivity|].
      apply SimilarityFacts.div_nonneg; lra.
    + destruct (Qeq_bool _ 0) eqn:E'; [by eexists|].
      apply SimilarityFacts.Qeq_bool_false in E'.
      rewrite pydiv_ok by done. by eexists.
    + destruct (SimilarityFacts.py_min_cases (sum (values x)) (sum (values y)))
        as [[-> _]|[-> _]]; rewrite pydiv_ok by lra;
        (eexists; split; [reflexivity|]); apply SimilarityFacts.div_nonneg; lra.
  - intros Hx%SimilarityFacts.presence_unit_range Hy%SimilarityFacts.presence_unit_range.
    destruct (Qeq_bool (Similarity.dictdot x y) 0) eqn:E.
    { split; [|split]; eexists; (split; [reflexivity|]); lra. }
    apply SimilarityFacts.Qeq_bool_false in E.
    pose proof (SimilarityFacts.unit_range_nonneg x Hx) as Hx'.
    pose proof (SimilarityFacts.unit_range_nonneg y Hy) as Hy'.
    destruct (SimilarityFacts.positive_totals x y Hx' Hy' E) as (Hd & Hsx & Hsy).
    destruct (SimilarityFacts.dictdot_le_sums x y Hx Hy) as [Hlx Hly].
    split; [|split].
    + rewrite pydiv_ok by lra. eexists. split; [reflexivity|].
      apply SimilarityFacts.div_unit_range; lra.
    + assert (Qeq_bool (sum (values x) + sum (values y)
                        - Similarity.dictdot x y) 0 = false) as ->.
      { apply SimilarityFacts.Qeq_bool_false. lra. }
      rewrite pydiv_ok by lra. eexists. split; [reflexivity|].
      apply SimilarityFacts.div_unit_range; lra.
    + destruct (SimilarityFacts.py_min_cases (sum (values x)) (sum (values y)))
        as [[-> _]|[-> _]]; rewrite pydiv_ok by lra;
        (eexists; split; [reflexivity|]); apply SimilarityFacts.div_unit_range; lra.
Qed.

Lemma similarity_ranges_witness :
  (∃ d, Similarity.dice_sim vec_a3 vec_a3 = Ok d ∧ 0 <= d)
  ∧ (∃ j, Similarity.jaccard_sim vec_ab vec_b1 = Ok j ∧ 0 <= j ∧ j <= 1).
Proof.
  split.
  - apply (similarity_ranges vec_a3 vec_a3);
      apply singleton_weights_in; unfold Similarity.nonneg; lra.
  - apply (similarity_ranges vec_ab vec_b1).
    + intros k v. unfold vec_ab. rewrite lookup_insert_Some, lookup_singleton_Some.
      intros [[_ <-]|[_ [_ <-]]]; by right.
    + apply singleton_weights_in. by right.
Defined.

(** ** Precision at a recall level *)

Module PrecisionFacts.
Import Precision.


Lemma hits_snoc (relevant pre : list Z) (i : Z) :
  hits relevant (pre ++ [i])
  = (hits relevant pre + if bool_decide (i ∈ relevant) then 1 else 0)%nat.
Proof.
  unfold hits. rewrite filter_app, length_app, filter_cons, filter_nil.
  destruct (decide (i ∈ relevant)) as [Hin|Hin].
  - by rewrite bool_decide_eq_true_2.
  - by rewrite bool_decide_eq_false_2.
Qed.

(** The rank-by-rank description of the points agrees with the counters. *)
Lemma achieved_points_from (relevant pre rest : list Z) :
  omap (point_at (pre ++ rest) relevant) (seq (S (length pre)) (length rest))
  = achieved_from relevant (Z.of_nat (hits relevant pre)) (Z.of_nat (length pre)) rest.
Proof.
  revert pre. induction rest as [|i rest IH]; intros pre; [done|].
  cbn [length seq omap list_omap achieved_from].
  specialize (IH (pre ++ [i])).
  rewrite <- app_assoc, length_app, Nat.add_1_r in IH. cbn [app length] in IH.
  rewrite IH, hits_snoc. clear IH.
  unfold point_at at 1. cbn [pred].
  rewrite (list_lookup_middle pre rest i (length pre) eq_refl). cbn [mbind option_bind].
  replace (take (S (length pre)) (pre ++ i :: rest)) with (pre ++ [i]).
  2:{ rewrite take_app, take_ge by lia.
      replace (S (length pre) - length pre)%nat with 1%nat by lia. done. }
  rewrite hits_snoc.
  destruct (bool_decide (i ∈ relevant)).
  - replace (Z.of_nat (hits relevant pre + 1)) with (Z.of_nat (hits relevant pre) + 1)%Z by lia.
    by replace (Z.of_nat (S (length pre))) with (Z.of_nat (length pre) + 1)%Z by lia.
  - rewrite Nat.add_0_r.
    by replace (Z.of_nat (S (length pre))) with (Z.of_nat (length pre) + 1)%Z by lia.
Qed.

Lemma achieved_points_eq (results relevant : list Z) :
  achieved_points results relevant = achieved_from relevant 0 0 results.
Proof. exact (achieved_points_from relevant [] results). Qed.


Lemma inject_Z_pos (n : Z) : (0 < n)%Z → 0 < inject_Z n.
Proof. intros Hn. change 0 with (inject_Z 0). by rewrite <- Zlt_Qlt. Qed.

Lemma div_le_mono (a b d : Q) : a <= b → 0 < d → a / d <= b / d.
Proof.
  intros Hab Hd. unfold Qdiv. apply Qmult_le_compat_r; [done|].
  apply Qinv_le_0_compat. lra.
Qed.

Lemma div_pos (a d : Q) : 0 < a → 0 < d → 0 < a / d.
Proof. intros Ha Hd. apply Qlt_shift_div_l; [done|]. lra. Qed.

Lemma filter_none {A : Type} (P : A → Prop) `{∀ a, Decision (P a)} (l : list A) :
  (∀ a, a ∈ l → ¬ P a) → filter P l = [].
Proof.
  induction l as [|a l IH]; intros Hl; [done|].
  rewrite filter_cons, decide_False by (apply Hl; left).
  apply IH. intros b Hb. apply Hl. by right.
Qed.

Section Scan.
Context (recall : Q) (relevant : list Z).

Lemma recall_div_ok (n : Z) :
  (0 < length relevant)%nat →
  pydiv (inject_Z n) (inject_Z (Z.of_nat (length relevant)))
  = Ok (inject_Z n / inject_Z (Z.of_nat (length relevant))).
Proof. intros H. apply pydiv_ok, inject_Z_nonzero. lia. Qed.

Lemma precision_div_ok (n c : Z) :
  (0 <= c)%Z → pydiv (inject_Z n) (inject_Z (c + 1)) = Ok (inject_Z n / inject_Z (c + 1)).
Proof. intros H. apply pydiv_ok, inject_Z_nonzero. lia. Qed.

(** Recall grows along the ranking: every later point lies above the next
    count of true positives. *)
Lemma achieved_recall_lower (rest : list Z) (tp c : Z) (p : Q * Q) :
  (0 < length relevant)%nat →
  p ∈ achieved_from relevant tp c rest →
  inject_Z (tp + 1) / inject_Z (Z.of_nat (length relevant)) <= p.1.
Proof.
  intros Hrel. revert tp c. induction rest as [|i rest IH]; intros tp c Hp;
    cbn [achieved_from] in Hp.
  - by apply not_elem_of_nil in Hp.
  - destruct (bool_decide (i ∈ relevant)).
    + apply elem_of_cons in Hp as [->|Hp]; [apply Qle_refl|].
      eapply Qle_trans; [|apply (IH _ _ Hp)].
      apply div_le_mono; [|apply inject_Z_pos; lia].
      rewrite <- Zle_Qle. lia.
    + by apply (IH _ _ Hp).
Qed.

Lemma achieved_nonempty (rest : list Z) (tp c : Z) :
  (∃ i, i ∈ rest ∧ i ∈ relevant) → achieved_from relevant tp c rest ≠ [].
Proof.
  revert tp c. induction rest as [|i rest IH]; intros tp c (d & Hd & Hrel).
  - by apply not_elem_of_nil in Hd.
  - cbn [achieved_from]. destruct (bool_decide (i ∈ relevant)) eqn:E; [done|].
    apply bool_decide_eq_false in E.
    apply elem_of_cons in Hd as [->|Hd]; [done|]. apply IH. by exists d.
Qed.

(** What the loop leaves in the four bracket variables. *)
Lemma scan_brackets (rest : list Z) (st : locals) :
  (0 < length relevant)%nat → (0 <= c st)%Z →
  ∃ st', scan recall relevant rest st = Ok st'
    ∧ lower st' = default (lower st)
        (last (filter (λ p, p.1 <= recall) (achieved_from relevant (tp st) (c st) rest)))
    ∧ upper st' = default (upper st)
        (head (filter (λ p, recall < p.1) (achieved_from relevant (tp st) (c st) rest))).
Proof.
  intros Hrel. revert st. induction rest as [|i rest IH]; intros st Hc;
    cbn [scan achieved_from].
  - by exists st.
  - destruct (bool_decide (i ∈ relevant)).
    + rewrite precision_div_ok, recall_div_ok by done. cbn [mbind result_bind].
      set (recall1 := inject_Z (tp st + 1) / inject_Z (Z.of_nat (length relevant))).
      set (precision1 := inject_Z (tp st + 1) / inject_Z (c st + 1)).
      destruct (Qlt_le_dec recall recall1) as [Hlt|Hle].
      * eexists. split; [reflexivity|]. unfold lower, upper. cbn [lower_r lower_p upper_r upper_p].
        rewrite !filter_cons. cbn [fst].
        rewrite decide_False by lra. rewrite decide_True by done. split; [|done].
        rewrite filter_none; [done|]. intros q Hq.
        apply achieved_recall_lower in Hq; [|done].
        assert (recall1 <= inject_Z (tp st + 1 + 1) / inject_Z (Z.of_nat (length relevant))).
        { apply div_le_mono; [|apply inject_Z_pos; lia]. rewrite <- Zle_Qle. lia. }
        lra.
      * edestruct (IH {| lower_r := recall1; upper_r := upper_r st;
                         lower_p := precision1; upper_p := upper_p st;
                         tp := (tp st + 1)%Z; c := (c st + 1)%Z |})
          as (st' & Hscan & Hlo & Hup); [cbn; lia|].
        exists st'. split; [done|]. rewrite Hlo, Hup.
        unfold lower, upper. cbn [lower_r lower_p upper_r upper_p tp c].
        rewrite !filter_cons. cbn [fst].
        rewrite decide_True by done. rewrite decide_False by lra.
        split; [|done]. rewrite last_cons. by destruct (last _).
    + edestruct (IH {| lower_r := lower_r st; upper_r := upper_r st;
                       lower_p := lower_p st; upper_p := upper_p st;
                       tp := tp st; c := (c st + 1)%Z |})
        as (st' & Hscan & Hlo & Hup); [cbn; lia|].
      exists st'. split; [done|]. by rewrite Hlo, Hup.
Qed.

(** Once a point above the target has been met the rest of the ranking is
    not read. *)
Lemma scan_stops (pre post : list Z) (st : locals) :
  is_Some (head (filter (λ p, recall < p.1) (achieved_from relevant (tp st) (c st) pre))) →
  scan recall relevant (pre ++ post) st = scan recall relevant pre st.
Proof.
  revert st. induction pre as [|i pre IH]; intros st Hup;
    cbn [app scan achieved_from] in *.
  - by destruct Hup.
  - destruct (bool_decide (i ∈ relevant)).
    + unfold pydiv.
      destruct (Qeq_bool (inject_Z (c st + 1)) 0); [done|].
      destruct (Qeq_bool (inject_Z (Z.of_nat (length relevant))) 0); [done|].
      cbn [mbind result_bind].
      destruct (Qlt_le_dec recall _) as [Hlt|Hle]; [done|].
      apply IH. cbn [tp c]. rewrite filter_cons in Hup. cbn [fst] in Hup.
      by rewrite decide_False in Hup by lra.
    + by apply IH.
Qed.

End Scan.

Lemma interpolate_ok (x1 y1 x2 y2 x : Q) :
  ¬ x2 - x1 == 0 →
  ∃ v, interpolate x1 y1 x2 y2 x = Ok v
     ∧ v == interpolation (x1, y1) (x2, y2) x.
Proof.
  intros Hnz. unfold interpolate. rewrite pydiv_ok by done.
  eexists. split; [reflexivity|]. unfold interpolation. cbn [fst snd]. by field.
Qed.

(** The two brackets never share their recall when some result is relevant. *)
Lemma brackets_apart (recall : Q) (relevant results : list Z) :
  (0 < length relevant)%nat →
  (∃ i, i ∈ results ∧ i ∈ relevant) →
  let pts := achieved_from relevant 0 0 results in
  ¬ (default anchor (head (filter (λ p, recall < p.1) pts))).1
    - (default anchor (last (filter (λ p, p.1 <= recall) pts))).1 == 0.
Proof.
  intros Hrel Hex pts.
  assert (∀ p, p ∈ pts → 0 < p.1) as Hpos.
  { intros p Hp. apply achieved_recall_lower in Hp; [|done].
    assert (0 < inject_Z (0 + 1) / inject_Z (Z.of_nat (length relevant))).
    { apply div_pos; [done|]. apply inject_Z_pos. lia. }
    lra. }
  destruct (head (filter (λ p, recall < p.1) pts)) as [u|] eqn:Eu.
  - apply head_Some_elem_of, list_elem_of_filter in Eu as [Hu Hin].
    specialize (Hpos u Hin).
    destruct (last (filter (λ p, p.1 <= recall) pts)) as [l|] eqn:El.
    + apply last_Some_elem_of, list_elem_of_filter in El as [Hl _].
      simpl in *. lra.
    + unfold anchor. simpl in *. lra.
  - apply head_None in Eu.
    pose proof (achieved_nonempty relevant results 0 0 Hex) as Hne.
    fold pts in Hne. destruct pts as [|p pts'] eqn:Epts; [done|].
    assert (p.1 <= recall) as Hp.
    { destruct (Qlt_le_dec recall p.1) as [Hlt|]; [|done].
      exfalso. eapply (filter_nil_not_elem_of _ _ p Eu Hlt). left. }
    destruct (last (filter (λ p, p.1 <= recall) (p :: pts'))) as [l|] eqn:El.
    + apply last_Some_elem_of, list_elem_of_filter in El as [_ Hin].
      specialize (Hpos l Hin). unfold anchor. simpl in *. lra.
    + apply last_None in El. exfalso.
      eapply (filter_nil_not_elem_of _ _ p El Hp). left.
Qed.

End PrecisionFacts.

Lemma scan_empty_relevant (recall : Q) (results : list Z) (st : Precision.locals) :
  ∃ st', Precision.scan recall [] results st = Ok st'
    ∧ Precision.lower st' = Precision.lower st
    ∧ Precision.upper st' = Precision.upper st.
Proof.
  revert st. induction results as [|i results IH]; intros st; cbn [Precision.scan].
  - by exists st.
  - rewrite bool_decide_eq_false_2 by apply not_elem_of_nil.
    edestruct IH as (st' & Hscan & Hlo & Hup). exists st'. split; [exact Hscan|].
    by rewrite Hlo, Hup.
Qed.

(** C9.  With an empty relevance list [precision_at] raises
    [ZeroDivisionError] for every results list and every recall level: no
    result is relevant, both brackets stay at recall 0, and [interpolate]
    divides by their difference.  No number is returned. *)
Theorem precision_at_empty_relevant (recall : Q) (results : list Z) :
  Precision.precision_at recall results [] = Raise ZeroDivisionError.
Proof.
  unfold Precision.precision_at.
  destruct (scan_empty_relevant recall results Precision.init)
    as (st' & -> & Hlo & Hup).
  cbn [mbind result_bind].
  unfold Precision.lower, Precision.upper in Hlo, Hup.
  cbn [Precision.init Precision.lower_r Precision.lower_p
       Precision.upper_r Precision.upper_p] in Hlo, Hup.
  injection Hlo as -> ->. injection Hup as -> ->.
  reflexivity.
Qed.

(** C1, as stated, fails at target recall 1.  In the ranking [3; 2; 7; 5; 1]
    with relevant ids [2; 5] the achieved points are (1/2, 1/2) and (1, 1/2):
    no achieved point has recall strictly greater than 1, so there is no
    upper bracketing point to stop at.  The whole list is scanned and the
    function still returns a number, 1/2. *)
Lemma full_recall_has_no_upper_bracket :
  (∀ d : Z, d ∈ [2; 5]%Z → d ∈ [3; 2; 7; 5; 1]%Z)
  ∧ 0 <= 1 <= 1
  ∧ Forall (λ p : Q * Q, ¬ 1 < p.1)
      (Precision.achieved_points [3; 2; 7; 5; 1]%Z [2; 5]%Z)
  ∧ Precision.upper_bracket 1
      (Precision.achieved_points [3; 2; 7; 5; 1]%Z [2; 5]%Z) = None
  ∧ ∃ v, Precision.precision_at 1 [3; 2; 7; 5; 1]%Z [2; 5]%Z = Ok v ∧ v == 1 # 2.
Proof.
  split; [|split; [|split; [|split]]].
  - intros d Hd. apply list_elem_of_In. apply list_elem_of_In in Hd.
    simpl in *. tauto.
  - split; lra.
  - vm_compute. repeat constructor; intros H; discriminate H.
  - vm_compute. reflexivity.
  - eexists. split; [vm_compute; reflexivity|]. reflexivity.
Qed.

(** C1, amended.  For a non-empty relevance list whose ids all occur in the
    results and for every target recall, [precision_at] returns a number.
    The lower bracket is the last achieved point with recall <= target, or
    the anchor (0, 1) when there is none; the upper bracket is the first
    achieved point with recall > target, or, when no achieved point exceeds
    the target, the initial value (0, 1) of the upper variables.  The two
    brackets have different recalls, and the number returned is the value of
    the code's own expression [m * target + (lower_p - m * lower_r)] with
    slope [m = (upper_p - lower_p) / (upper_r - lower_r)].  (In exact
    arithmetic this is the two-point formula; evaluated in doubles the two
    can differ in the last place, see [Rounding.interpolate_rounds_below].)
    When an upper bracketing point exists the scan stops at it: on any prefix of the
    results that already holds such a point the function returns what it
    returns on the whole list. *)
Theorem precision_at_interpolates (recall : Q) (results relevant : list Z) :
  relevant ≠ [] →
  (∀ d, d ∈ relevant → d ∈ results) →
  let pts := Precision.achieved_points results relevant in
  let lo := Precision.lower_bracket recall pts in
  let up := default Precision.anchor (Precision.upper_bracket recall pts) in
  let m := (up.2 - lo.2) / (up.1 - lo.1) in
  ¬ up.1 - lo.1 == 0
  ∧ Precision.precision_at recall results relevant
    = Ok (m * recall + (lo.2 - m * lo.1))
  ∧ ∀ k : nat,
      is_Some (Precision.upper_bracket recall
                 (Precision.achieved_points (take k results) relevant)) →
      Precision.precision_at recall (take k results) relevant
      = Precision.precision_at recall results relevant.
Proof.
  intros Hne Hsub pts lo up m.
  assert (0 < length relevant)%nat as Hrel by (destruct relevant; [done|simpl; lia]).
  assert (∃ i, i ∈ results ∧ i ∈ relevant) as Hex.
  { destruct relevant as [|d relevant]; [done|].
    exists d. split; [apply Hsub|]; left. }
  pose proof (PrecisionFacts.brackets_apart recall relevant results Hrel Hex) as Hapart.
  cbn zeta in Hapart. rewrite <- PrecisionFacts.achieved_points_eq in Hapart.
  fold pts in Hapart.
  fold (Precision.lower_bracket recall pts) in Hapart.
  fold (Precision.upper_bracket recall pts) in Hapart.
  fold lo in Hapart. fold up in Hapart.
  split; [exact Hapart|]. split.
  - unfold Precision.precision_at.
    destruct (PrecisionFacts.scan_brackets recall relevant results Precision.init Hrel)
      as (st & -> & Hlo & Hup); [done|].
    cbn [mbind result_bind].
    cbn [Precision.init Precision.tp Precision.c] in Hlo, Hup.
    rewrite <- PrecisionFacts.achieved_points_eq in Hlo, Hup.
    change (Precision.lower Precision.init) with Precision.anchor in Hlo.
    change (Precision.upper Precision.init) with Precision.anchor in Hup.
    fold pts in Hlo, Hup.
    fold (Precision.lower_bracket recall pts) in Hlo.
    fold (Precision.upper_bracket recall pts) in Hup.
    fold lo in Hlo. fold up in Hup.
    unfold Precision.lower in Hlo. unfold Precision.upper in Hup.
    subst m. destruct lo as [lo_r lo_p], up as [up_r up_p].
    injection Hlo as -> ->. injection Hup as -> ->.
    cbn [fst snd] in *. unfold Precision.interpolate.
    by rewrite pydiv_ok.
  - intros k Hk. unfold Precision.precision_at.
    rewrite PrecisionFacts.achieved_points_eq in Hk.
    rewrite <- (take_drop k results) at 2.
    by rewrite (PrecisionFacts.scan_stops recall relevant _ _ Precision.init Hk).
Qed.

Lemma precision_at_interpolates_witness :
  (∃ v, Precision.precision_at (1 # 4) [3; 2; 7; 5; 1]%Z [2; 5]%Z = Ok v
      ∧ v == 3 # 4)
  ∧ Precision.precision_at (1 # 4) (take 2 [3; 2; 7; 5; 1]%Z) [2; 5]%Z
    = Precision.precision_at (1 # 4) [3; 2; 7; 5; 1]%Z [2; 5]%Z.
Proof.
  assert (∀ d : Z, d ∈ [2; 5]%Z → d ∈ [3; 2; 7; 5; 1]%Z) as Hsub.
  { intros d Hd. apply elem_of_cons in Hd as [->|Hd].
    - apply list_elem_of_In. simpl. tauto.
    - apply elem_of_cons in Hd as [->|Hd].
      + apply list_elem_of_In. simpl. tauto.
      + by apply not_elem_of_nil in Hd. }
  destruct (precision_at_interpolates (1 # 4) [3; 2; 7; 5; 1]%Z [2; 5]%Z)
    as (_ & Hv & Hstop); [done|exact Hsub|].
  split.
  - eexists. split; [exact Hv|]. vm_compute. reflexivity.
  - apply Hstop. vm_compute. by eexists.
Defined.

(** ** Ranks and normalised precision *)

Module RankFacts.
Import Rank.
Local Open Scope R_scope.

Lemma for_each_app {S A : Type} (body : S → A → result S) (xs ys : list A) (st : S) :
  for_each body (xs ++ ys) st = (st' ← for_each body xs st; for_each body ys st').
Proof.
  revert st. induction xs as [|x xs IH]; intros st; cbn [app for_each]; [done|].
  destruct (body st x); cbn [mbind result_bind]; [apply IH|done].
Qed.

(** An id that occurs once is found at its position. *)
Lemma find_rank_position (results : list Z) (d : Z) (i : nat) (c : Z) :
  occurs_once results d →
  results !! i = Some d →
  find_rank d results c = Some (c + Z.of_nat i)%Z.
Proof.
  unfold occurs_once. revert i c.
  induction results as [|r results IH]; intros i c Honce Hi; [done|].
  cbn [find_rank]. rewrite filter_cons in Honce.
  destruct (decide (r = d)) as [->|Hne].
  - rewrite bool_decide_eq_true_2 by done. destruct i as [|i].
    + f_equal. lia.
    + exfalso. cbn in Hi. apply list_elem_of_lookup_2 in Hi.
      assert (d ∈ filter (λ x, x = d) results) as Hin by (by apply list_elem_of_filter).
      cbn [length] in Honce. destruct (filter (λ x, x = d) results); [|done].
      by apply not_elem_of_nil in Hin.
  - rewrite bool_decide_eq_false_2 by done. destruct i as [|i].
    + cbn in Hi. congruence.
    + cbn in Hi. rewrite (IH i (c + 1)%Z Honce Hi). f_equal. lia.
Qed.

Lemma calc_rank_positions (results relevant ranks : list Z) :
  (∀ d, d ∈ relevant → occurs_once results d) →
  Forall2 (is_rank_of results) relevant ranks →
  calc_rank results relevant = ranks.
Proof.
  intros Honce Hranks. unfold calc_rank.
  induction Hranks as [|d r relevant ranks [Hr Hd] _ IH]; [done|].
  cbn [omap list_omap].
  rewrite (find_rank_position results d _ 1%Z (Honce d ltac:(left)) Hd).
  rewrite IH by (intros d' Hd'; apply Honce; by right).
  f_equal. lia.
Qed.

Lemma np_log_pos (x : R) : 0 < x → np_log x = Fin (ln x).
Proof. intros Hx. unfold np_log. by destruct (Rlt_dec 0 x). Qed.

Lemma foldl_Rplus (l : list R) (a : R) : foldl Rplus a l = a + foldr Rplus 0 l.
Proof.
  revert a. induction l as [|x l IH]; intros a; cbn [foldl foldr].
  - lra.
  - rewrite IH. lra.
Qed.

(** The summing loop on lists of finite logarithms. *)
Lemma sum_loop (l1 l2 : list R) (n : nat) :
  (n ≤ length l1)%nat → (n ≤ length l2)%nat →
  for_each (sum_step (map Fin l1) (map Fin l2)) (seq 0 n) (Fin 0, Fin 0)
  = Ok (Fin (foldl Rplus 0 (take n l2)), Fin (foldl Rplus 0 (take n l1))).
Proof.
  induction n as [|n IH]; intros H1 H2; [done|].
  rewrite seq_S, for_each_app, IH by lia. cbn [mbind result_bind for_each plus].
  destruct (lookup_lt_is_Some_2 l1 n) as [x1 Hx1]; [lia|].
  destruct (lookup_lt_is_Some_2 l2 n) as [x2 Hx2]; [lia|].
  unfold sum_step, list_getitem.
  rewrite !list_lookup_fmap, Hx1, Hx2. cbn.
  rewrite (take_S_r _ _ _ Hx1), (take_S_r _ _ _ Hx2), !foldl_app. done.
Qed.

Lemma sum_ln_foldr (l : list Z) :
  sum_ln l = foldr Rplus 0 (map (λ r, ln (IZR r)) l).
Proof. induction l as [|k l IH]; cbn; [done|]. by rewrite <- IH. Qed.

(** The denominator of the formula is positive when 0 < Rel < N. *)
Lemma denominator_pos (n r : R) :
  0 < r → r < n → 0 < n * ln n - (n - r) * ln (n - r) - r * ln r.
Proof.
  intros Hr Hrn.
  assert (ln (n - r) < ln n) as H1 by (apply ln_increasing; lra).
  assert (ln r < ln n) as H2 by (apply ln_increasing; lra).
  nra.
Qed.

End RankFacts.

(** C5.  When 0 < Rel < N and every relevant id occurs exactly once in the
    results, [norm_precision] raises nothing and returns the finite number
    1 - (sum(log(rank_i)) - sum(log(1..Rel)))
        / (N log N - (N - Rel) log(N - Rel) - Rel log Rel),
    where rank_i is the 1-based position in the results of the i-th relevant
    id; the denominator is positive, so the division is defined. *)
Theorem norm_precision_formula (results relevant ranks : list Z) :
  let N := Z.of_nat (length results) in
  let Rel := Z.of_nat (length relevant) in
  let denominator :=
    (IZR N * ln (IZR N) - IZR (N - Rel) * ln (IZR (N - Rel))
     - IZR Rel * ln (IZR Rel))%R in
  (0 < length relevant < length results)%nat →
  (∀ d, d ∈ relevant → Rank.occurs_once results d) →
  Forall2 (Rank.is_rank_of results) relevant ranks →
  Rank.norm_precision results relevant
  = Ok (Rank.Fin
          (1 - (Rank.sum_ln ranks - Rank.sum_ln (Rank.upto (length relevant)))
               / denominator)%R)
  ∧ (0 < denominator)%R.
Proof.
  intros N Rel denominator [Hrel HN] Honce Hranks.
  assert (0 < denominator)%R as Hden.
  { unfold denominator. rewrite minus_IZR.
    apply RankFacts.denominator_pos.
    - apply IZR_lt. lia.
    - apply IZR_lt. lia. }
  split; [|exact Hden].
  unfold Rank.norm_precision.
  rewrite (RankFacts.calc_rank_positions results relevant ranks Honce Hranks).
  assert (map (λ r, Rank.np_log (IZR r)) ranks
          = map Rank.Fin (map (λ r, ln (IZR r)) ranks)) as ->.
  { rewrite map_map. apply map_ext_in. intros r Hr%list_elem_of_In.
    apply RankFacts.np_log_pos, IZR_lt.
    assert (Forall (λ r, (1 <= r)%Z) ranks) as Hall.
    { clear -Hranks. induction Hranks as [|d r' ? ? [H1 _] _ IH]; by constructor. }
    rewrite Forall_forall in Hall. specialize (Hall r Hr). simpl in Hall. lia. }
  assert (map (λ i, Rank.np_log (IZR (Z.of_nat i + 1))) (seq 0 (length relevant))
          = map Rank.Fin (map (λ i, ln (IZR (Z.of_nat i + 1))) (seq 0 (length relevant))))
    as ->.
  { rewrite map_map. apply map_ext. intros i.
    apply RankFacts.np_log_pos, IZR_lt. lia. }
  pose proof (Forall2_length _ _ _ Hranks) as Hlen.
  rewrite RankFacts.sum_loop by (rewrite length_map, ?length_seq; lia).
  cbn [mbind result_bind fst snd].
  rewrite !take_ge by (rewrite length_map, ?length_seq; lia).
  rewrite !RankFacts.np_log_pos by (apply IZR_lt; lia).
  rewrite !RankFacts.foldl_Rplus, <- RankFacts.sum_ln_foldr.
  assert (foldr Rplus 0%R (map (λ i, ln (IZR (Z.of_nat i + 1))) (seq 0 (length relevant)))
          = Rank.sum_ln (Rank.upto (length relevant))) as ->.
  { rewrite RankFacts.sum_ln_foldr. unfold Rank.upto.
    rewrite <- seq_shift, !map_map. f_equal. apply map_ext. intros i.
    do 2 f_equal. lia. }
  unfold Rank.np_sub, Rank.np_mul, Rank.np_add, Rank.np_opp, Rank.np_div.
  fold N Rel.
  set (den := (IZR N * ln (IZR N) + - (IZR (N - Rel) * ln (IZR (N - Rel)))
               + - (IZR Rel * ln (IZR Rel)))%R).
  assert (den = denominator) as Hd by (unfold den, denominator; lra).
  destruct (Req_dec_T den 0) as [Hz|_]; [lra|].
  rewrite Hd. do 2 f_equal. unfold Rminus. do 3 f_equal. lra.
Qed.

Lemma norm_precision_formula_witness :
  Rank.norm_precision [3; 2; 7; 5; 1; 4; 6; 8; 9; 10]%Z [2; 5]%Z
  = Ok (Rank.Fin
          (1 - (Rank.sum_ln [2; 4]%Z - Rank.sum_ln (Rank.upto 2))
               / (IZR 10 * ln (IZR 10) - IZR (10 - 2) * ln (IZR (10 - 2))
                  - IZR 2 * ln (IZR 2)))%R).
Proof.
  apply (norm_precision_formula [3; 2; 7; 5; 1; 4; 6; 8; 9; 10]%Z [2; 5]%Z [2; 4]%Z).
  - simpl. lia.
  - intros d Hd. apply elem_of_cons in Hd as [->|Hd]; [reflexivity|].
    apply elem_of_cons in Hd as [->|Hd]; [reflexivity|].
    by apply not_elem_of_nil in Hd.
  - repeat (constructor; [split; [lia|reflexivity]|]). constructor.
Defined.

(** ** Search *)

Module SearchFacts.
Import Search.

Section Sorting.
Context {A : Type} (key : A → Q) (before : A → A → Prop).


Lemma insert_sorted_Permutation (a : A) (l : list A) :
  insert_sorted key a l ≡ₚ a :: l.
Proof.
  induction l as [|b l IH]; cbn [insert_sorted]; [done|].
  destruct (Qlt_le_dec (key b) (key a)); [|done].
  rewrite IH. apply Permutation_swap.
Qed.

Lemma sorted_Permutation (l : list A) : sorted key l ≡ₚ l.
Proof.
  induction l as [|a l IH]; [done|].
  change (sorted key (a :: l)) with (insert_sorted key a (sorted key l)).
  by rewrite insert_sorted_Permutation, IH.
Qed.

Lemma insert_sorted_stable (a : A) (l : list A) :
  StronglySorted (stable_lt key before) l →
  Forall (before a) l →
  StronglySorted (stable_lt key before) (insert_sorted key a l).
Proof.
  induction l as [|b l IH]; intros Hs Hb; cbn [insert_sorted].
  - repeat constructor.
  - apply StronglySorted_inv in Hs as [Hs Hbl].
    apply Forall_cons in Hb as [Hab Hal].
    destruct (Qlt_le_dec (key b) (key a)) as [Hlt|Hle].
    + constructor; [by apply IH|].
      rewrite insert_sorted_Permutation. constructor; [by left|done].
    + assert (stable_lt key before a b) as Hab'.
      { destruct (Qlt_le_dec (key a) (key b)); [by left|right].
        split; [lra|done]. }
      constructor; [by constructor|]. constructor; [done|].
      rewrite Forall_forall in Hbl, Hal |- *. intros b' Hb'.
      specialize (Hbl b' Hb'). specialize (Hal b' Hb').
      destruct Hbl as [?|[? _]], (Qlt_le_dec (key a) (key b')) as [?|?];
        try (by left); right; (split; [lra|done]).
Qed.

Lemma sorted_stable (l : list A) :
  StronglySorted before l → StronglySorted (stable_lt key before) (sorted key l).
Proof.
  induction l as [|a l IH]; intros Hl.
  - constructor.
  - apply StronglySorted_inv in Hl as [Hl Hal].
    change (sorted key (a :: l)) with (insert_sorted key a (sorted key l)).
    apply insert_sorted_stable; [by apply IH|].
    by rewrite sorted_Permutation.
Qed.

End Sorting.

Lemma StronglySorted_lookup {A : Type} (R : A → A → Prop) (l : list A)
    (i j : nat) (x y : A) :
  StronglySorted R l → (i < j)%nat → l !! i = Some x → l !! j = Some y → R x y.
Proof.
  intros Hs. revert i j. induction Hs as [|a l Hs IH Hal]; intros i j Hij Hi Hj;
    [done|].
  destruct j as [|j]; [lia|]. cbn in Hj. destruct i as [|i].
  - cbn in Hi. injection Hi as ->. rewrite Forall_forall in Hal.
    apply Hal. by eapply list_elem_of_lookup_2.
  - cbn in Hi. apply (IH i j); [lia|done..].
Qed.

Lemma enumerate_from_elem {A : Type} (l : list A) (start : Z) (p : Z * A) :
  p ∈ enumerate_from start l →
  ∃ k : nat, p.1 = (start + Z.of_nat k)%Z ∧ l !! k = Some p.2.
Proof.
  revert start. induction l as [|a l IH]; intros start Hp; cbn [enumerate_from] in Hp.
  - by apply not_elem_of_nil in Hp.
  - apply elem_of_cons in Hp as [->|Hp].
    + exists 0%nat. split; [cbn; lia|done].
    + destruct (IH _ Hp) as (k & Hk & Hl). exists (S k). split; [lia|done].
Qed.

Lemma enumerate_from_sorted {A : Type} (l : list A) (start : Z) :
  StronglySorted (λ p q : Z * A, (p.1 < q.1)%Z) (enumerate_from start l).
Proof.
  revert start. induction l as [|a l IH]; intros start; cbn [enumerate_from];
    [constructor|].
  constructor; [apply IH|].
  apply Forall_forall. intros p Hp.
  apply enumerate_from_elem in Hp as (k & Hk & _). cbn. lia.
Qed.

Lemma enumerate_from_ids {A : Type} (l : list A) (start : Z) :
  map (λ p : Z * A, (p.1 + 1)%Z) (enumerate_from start l)
  = map (λ i, (start + Z.of_nat i)%Z) (seq 1 (length l)).
Proof.
  revert start. induction l as [|a l IH]; intros start; [done|].
  cbn [enumerate_from map length seq]. f_equal.
  rewrite IH, <- (seq_shift (length l) 1), !map_map. apply map_ext. intros i. lia.
Qed.

Lemma StronglySorted_map {A B : Type} (R1 : A → A → Prop) (R2 : B → B → Prop)
    (f : A → B) (l : list A) :
  (∀ x y, R1 x y → R2 (f x) (f y)) →
  StronglySorted R1 l → StronglySorted R2 (map f l).
Proof.
  intros Hf Hs. induction Hs as [|a l Hs IH Hal]; cbn [map]; [constructor|].
  constructor; [exact IH|].
  rewrite Forall_forall in Hal. apply Forall_forall. intros b Hb.
  apply list_elem_of_fmap in Hb as (x & -> & Hx). by apply Hf, Hal.
Qed.

(** A list comprehension whose body raises nothing is a [map]. *)
Lemma mapM_ok {A B : Type} (f : A → result B) (g : A → B) (l : list A) :
  (∀ a, a ∈ l → f a = Ok (g a)) → mapM f l = Ok (map g l).
Proof.
  induction l as [|a l IH]; intros Hf; [done|].
  cbn [mapM map]. rewrite (Hf a) by left. cbn [mbind result_bind].
  rewrite IH by (intros; apply Hf; by right). done.
Qed.

End SearchFacts.

(** C2.  When the similarity function returns a score for every document,
    [search] returns a permutation of the document ids 1..n (the id of a
    document is its index + 1; nothing is cut off), in which an earlier id
    never has a smaller score than a later one, and two ids of equal score
    stand in the order of their indices. *)
Theorem search_sorts_stably
    (doc_vectors : list SparseVector) (query_vec : SparseVector)
    (sim : SparseVector → SparseVector → result Q) :
  (∀ dv, dv ∈ doc_vectors → ∃ s, sim query_vec dv = Ok s) →
  ∃ results, Search.search doc_vectors query_vec sim = Ok results
    ∧ results ≡ₚ Search.doc_ids (length doc_vectors)
    ∧ ∀ (i j : nat) (a b : Z),
        (i < j)%nat → results !! i = Some a → results !! j = Some b →
        ∃ va vb sa sb,
          (1 <= a)%Z ∧ doc_vectors !! Z.to_nat (a - 1) = Some va
          ∧ (1 <= b)%Z ∧ doc_vectors !! Z.to_nat (b - 1) = Some vb
          ∧ sim query_vec va = Ok sa ∧ sim query_vec vb = Ok sb
          ∧ sb <= sa ∧ (sa == sb → (a < b)%Z).
Proof.
  intros Hsim. unfold Search.search.
  set (sc := λ dv, match sim query_vec dv with Ok s => s | Raise _ => 0 end).
  set (g := λ p : Z * SparseVector, ((p.1 + 1)%Z, sc p.2)).
  assert (∀ p, p ∈ Search.enumerate doc_vectors →
            ∃ k : nat, p.1 = Z.of_nat k ∧ doc_vectors !! k = Some p.2
                       ∧ sim query_vec p.2 = Ok (sc p.2)) as Henum.
  { intros p Hp. apply SearchFacts.enumerate_from_elem in Hp as (k & Hk & Hl).
    exists k. split; [lia|]. split; [done|].
    destruct (Hsim p.2) as [s Hs]; [by eapply list_elem_of_lookup_2|].
    unfold sc. by rewrite Hs. }
  rewrite (SearchFacts.mapM_ok _ g).
  2:{ intros p Hp. destruct (Henum p Hp) as (_ & _ & _ & ->). done. }
  cbn [mbind result_bind].
  set (l0 := map g (Search.enumerate doc_vectors)).
  set (key := λ x : Z * Q, - x.2).
  set (before := λ x y : Z * Q, (x.1 < y.1)%Z).
  eexists. split; [reflexivity|].
  pose proof (SearchFacts.sorted_Permutation key l0) as Hperm.
  split.
  - rewrite Hperm.
    assert (l0.*1 = map (λ p : Z * SparseVector, (p.1 + 1)%Z)
                        (Search.enumerate_from 0 doc_vectors)) as ->.
    { unfold l0, Search.enumerate.
      induction (Search.enumerate_from 0%Z doc_vectors) as [|p l IH]; [done|].
      cbn [map fmap list_fmap]. f_equal. exact IH. }
    rewrite SearchFacts.enumerate_from_ids.
    unfold Search.doc_ids. by erewrite map_ext; [|intros k; apply Z.add_0_l].
  - intros i j a b Hij Ha Hb.
    assert (StronglySorted before l0) as Hl0.
    { unfold l0. eapply SearchFacts.StronglySorted_map;
        [|apply SearchFacts.enumerate_from_sorted].
      intros x y Hxy. unfold before, g. simpl in *. lia. }
    apply (SearchFacts.sorted_stable key before) in Hl0.
    apply list_lookup_fmap_Some in Ha as (x & -> & Hx).
    apply list_lookup_fmap_Some in Hb as (y & -> & Hy).
    pose proof (SearchFacts.StronglySorted_lookup _ _ _ _ _ _ Hl0 Hij Hx Hy) as Hxy.
    assert (∀ z, z ∈ Search.sorted key l0 →
              ∃ p, z = g p ∧ p ∈ Search.enumerate doc_vectors) as Hsrc.
    { intros z Hz. rewrite Hperm in Hz. unfold l0 in Hz.
      by apply list_elem_of_fmap in Hz. }
    destruct (Hsrc x) as (p & -> & Hp); [by eapply list_elem_of_lookup_2|].
    destruct (Hsrc y) as (q & -> & Hq); [by eapply list_elem_of_lookup_2|].
    destruct (Henum p Hp) as (kp & Hkp & Hlp & Hsp).
    destruct (Henum q Hq) as (kq & Hkq & Hlq & Hsq).
    exists p.2, q.2, (sc p.2), (sc q.2). unfold g. cbn [fst snd].
    rewrite Hkp, Hkq.
    replace (Z.to_nat (Z.of_nat kp + 1 - 1)) with kp by lia.
    replace (Z.to_nat (Z.of_nat kq + 1 - 1)) with kq by lia.
    repeat (split; [done || lia|]).
    unfold Search.stable_lt, key, before, g in Hxy. cbn [fst snd] in Hxy.
    rewrite Hkp, Hkq in Hxy.
    destruct Hxy as [Hlt|[Heq Hlt]]; split; try lra; try done.
Qed.

Lemma search_sorts_stably_witness :
  ∃ results,
    Search.search [vec_ab; vec_a2; vec_b1] vec_ab Similarity.dice_sim = Ok results
    ∧ results ≡ₚ Search.doc_ids 3.
Proof.
  destruct (search_sorts_stably [vec_ab; vec_a2; vec_b1] vec_ab Similarity.dice_sim)
    as (results & Hres & Hperm & _).
  - intros dv Hdv.
    apply elem_of_cons in Hdv as [->|Hdv]; [by eexists|].
    apply elem_of_cons in Hdv as [->|Hdv]; [by eexists|].
    apply elem_of_cons in Hdv as [->|Hdv]; [by eexists|].
    by apply not_elem_of_nil in Hdv.
  - exists results. split; [exact Hres|exact Hperm].
Defined.

(** * Further properties of the code *)

(** ** [interpolate] *)

(** X2.  [interpolate] raises [ZeroDivisionError] exactly when the two
    abscissas are the same number, whatever the other arguments. *)
Theorem interpolate_raises_iff (x1 y1 x2 y2 x : Q) :
  Precision.interpolate x1 y1 x2 y2 x = Raise ZeroDivisionError ↔ x1 == x2.
Proof.
  unfold Precision.interpolate, pydiv.
  destruct (Qeq_bool (x2 - x1) 0) eqn:E; cbn [mbind result_bind].
  - apply Qeq_bool_iff in E. split; [intros _; lra|done].
  - apply SimilarityFacts.Qeq_bool_false in E. split; [done|intros H; lra].
Qed.

(** ** [precision_at] at the edges *)

Module PrecisionEdges.
Import Precision PrecisionFacts.

Lemma scan_no_hit (recall : Q) (relevant results : list Z) (st : locals) :
  (∀ i, i ∈ results → i ∉ relevant) →
  ∃ st', scan recall relevant results st = Ok st'
    ∧ lower st' = lower st ∧ upper st' = upper st.
Proof.
  revert st. induction results as [|i results IH]; intros st Hno; cbn [scan].
  - by exists st.
  - rewrite bool_decide_eq_false_2 by (apply Hno; left).
    edestruct IH as (st' & Hscan & Hlo & Hup);
      [intros j Hj; apply Hno; by right|].
    exists st'. split; [exact Hscan|]. by rewrite Hlo, Hup.
Qed.

Lemma achieved_recall_pos (relevant results : list Z) (p : Q * Q) :
  (0 < length relevant)%nat →
  p ∈ achieved_from relevant 0 0 results → 0 < p.1.
Proof.
  intros Hrel Hp. apply achieved_recall_lower in Hp; [|done].
  assert (0 < inject_Z (0 + 1) / inject_Z (Z.of_nat (length relevant))).
  { apply div_pos; [done|]. apply inject_Z_pos. lia. }
  lra.
Qed.

End PrecisionEdges.

Lemma no_relevant_result_raises
    (recall : Q) (results relevant : list Z) :
  (∀ i, i ∈ results → i ∉ relevant) →
  Precision.precision_at recall results relevant = Raise ZeroDivisionError.
Proof.
  intros Hno. unfold Precision.precision_at.
  destruct (PrecisionEdges.scan_no_hit recall relevant results Precision.init Hno)
    as (st' & -> & Hlo & Hup).
  cbn [mbind result_bind].
  unfold Precision.lower, Precision.upper in Hlo, Hup.
  cbn [Precision.init Precision.lower_r Precision.lower_p
       Precision.upper_r Precision.upper_p] in Hlo, Hup.
  injection Hlo as -> ->. injection Hup as -> ->.
  reflexivity.
Qed.

(** X3.  When no id of the results is relevant, [precision_at] raises
    [ZeroDivisionError] at every recall level: both brackets stay at recall 0
    and [interpolate] divides by their difference. *)
Theorem precision_at_no_relevant_result
    (recall : Q) (results relevant : list Z) :
  (∀ i, i ∈ results → i ∉ relevant) →
  Precision.precision_at recall results relevant = Raise ZeroDivisionError.
Proof. exact (no_relevant_result_raises recall results relevant). Qed.

Lemma precision_at_no_relevant_result_witness :
  Precision.precision_at (1 # 2) [3; 7; 1]%Z [2; 5]%Z = Raise ZeroDivisionError.
Proof.
  apply precision_at_no_relevant_result.
  intros i Hi Hrel. apply list_elem_of_In in Hi, Hrel. simpl in Hi, Hrel. lia.
Defined.

(** X4.  When some result is relevant, the precision at recall 0 is exactly
    1: the first relevant result already lies above the target, so the lower
    bracket is the anchor (0, 1) and the target sits on it. *)
Theorem precision_at_zero_recall (results relevant : list Z) :
  (∃ i, i ∈ results ∧ i ∈ relevant) →
  ∃ v, Precision.precision_at 0 results relevant = Ok v ∧ v == 1.
Proof.
  intros Hex.
  assert (0 < length relevant)%nat as Hrel.
  { destruct Hex as (i & _ & Hi). destruct relevant; [|simpl; lia].
    by apply not_elem_of_nil in Hi. }
  unfold Precision.precision_at.
  destruct (PrecisionFacts.scan_brackets 0 relevant results Precision.init Hrel)
    as (st & -> & Hlo & Hup); [done|].
  cbn [mbind result_bind]. cbn [Precision.init Precision.tp Precision.c] in Hlo, Hup.
  set (pts := Precision.achieved_from relevant 0 0 results) in *.
  assert (∀ p, p ∈ pts → 0 < p.1) as Hpos
    by (intros p; by apply PrecisionEdges.achieved_recall_pos).
  rewrite PrecisionFacts.filter_none in Hlo
    by (intros p Hp; specialize (Hpos p Hp); simpl; lra).
  pose proof (PrecisionFacts.achieved_nonempty relevant results 0 0 Hex) as Hne.
  fold pts in Hne. destruct pts as [|u pts']; [done|].
  rewrite filter_cons, decide_True in Hup by (apply Hpos; left).
  unfold Precision.lower, Precision.upper in Hlo, Hup.
  cbn [last default head Precision.init Precision.lower_r Precision.lower_p] in Hlo, Hup.
  simpl in Hlo, Hup. injection Hlo as -> ->. destruct u as [ur up].
  injection Hup as -> ->.
  assert (0 < ur) as Hur by (apply (Hpos (ur, up)); left).
  destruct (PrecisionFacts.interpolate_ok 0 1 ur up 0) as (v & Hv & Heq); [lra|].
  exists v. split; [exact Hv|]. rewrite Heq.
  unfold Precision.interpolation. cbn [fst snd]. field. lra.
Qed.

Lemma precision_at_zero_recall_witness :
  ∃ v, Precision.precision_at 0 ranking10 [2; 5]%Z = Ok v ∧ v == 1.
Proof.
  apply precision_at_zero_recall. exists 2%Z.
  split; apply list_elem_of_In; simpl; tauto.
Defined.

Module PrecisionFull.
Import Precision PrecisionFacts.

Lemma hits_cons (relevant l : list Z) (i : Z) :
  hits relevant (i :: l)
  = ((if bool_decide (i ∈ relevant) then 1 else 0) + hits relevant l)%nat.
Proof.
  unfold hits. rewrite filter_cons.
  destruct (decide (i ∈ relevant)).
  - by rewrite bool_decide_eq_true_2.
  - by rewrite bool_decide_eq_false_2.
Qed.

Lemma achieved_from_app (relevant l1 l2 : list Z) (tp c : Z) :
  achieved_from relevant tp c (l1 ++ l2)
  = achieved_from relevant tp c l1
    ++ achieved_from relevant (tp + Z.of_nat (hits relevant l1))
         (c + Z.of_nat (length l1)) l2.
Proof.
  revert tp c. induction l1 as [|i l1 IH]; intros tp c.
  - cbn. by rewrite !Z.add_0_r.
  - cbn [app achieved_from length]. rewrite hits_cons, !IH.
    replace (c + Z.of_nat (S (length l1)))%Z
      with (c + 1 + Z.of_nat (length l1))%Z by lia.
    destruct (bool_decide (i ∈ relevant)); cbn [app].
    + by replace (tp + Z.of_nat (1 + hits relevant l1))%Z
        with (tp + 1 + Z.of_nat (hits relevant l1))%Z by lia.
    + done.
Qed.

Lemma achieved_from_no_hit (relevant l : list Z) (tp c : Z) :
  (∀ i, i ∈ l → i ∉ relevant) → achieved_from relevant tp c l = [].
Proof.
  revert tp c. induction l as [|i l IH]; intros tp c Hno; [done|].
  cbn [achieved_from]. rewrite bool_decide_eq_false_2 by (apply Hno; left).
  apply IH. intros j Hj. apply Hno. by right.
Qed.

Lemma hits_no_hit (relevant l : list Z) :
  (∀ i, i ∈ l → i ∉ relevant) → hits relevant l = 0%nat.
Proof.
  intros Hno. unfold hits. rewrite filter_none; [done|]. exact Hno.
Qed.

(** Recall never exceeds the share of relevant results met so far. *)
Lemma achieved_recall_upper (relevant l : list Z) (tp c : Z) (p : Q * Q) :
  (0 < length relevant)%nat →
  p ∈ achieved_from relevant tp c l →
  p.1 <= inject_Z (tp + Z.of_nat (hits relevant l))
         / inject_Z (Z.of_nat (length relevant)).
Proof.
  intros Hrel. revert tp c. induction l as [|i l IH]; intros tp c Hp;
    cbn [achieved_from] in Hp.
  - by apply not_elem_of_nil in Hp.
  - rewrite hits_cons. destruct (bool_decide (i ∈ relevant)).
    + apply elem_of_cons in Hp as [->|Hp].
      * cbn [fst]. apply div_le_mono; [|apply inject_Z_pos; lia].
        rewrite <- Zle_Qle. lia.
      * eapply Qle_trans; [apply (IH _ _ Hp)|].
        apply div_le_mono; [|apply inject_Z_pos; lia].
        rewrite <- Zle_Qle. lia.
    + eapply Qle_trans; [apply (IH _ _ Hp)|].
      apply div_le_mono; [|apply inject_Z_pos; lia].
      rewrite <- Zle_Qle. lia.
Qed.

(** In duplicate-free lists, the relevant results are the relevant ids. *)
Lemma hits_NoDup (relevant results : list Z) :
  NoDup results → NoDup relevant →
  (∀ d, d ∈ relevant → d ∈ results) →
  hits relevant results = length relevant.
Proof.
  intros Hres Hrel Hsub. unfold hits. apply Permutation_length.
  apply NoDup_Permutation; [by apply NoDup_filter|done|].
  intros d. rewrite list_elem_of_filter. naive_solver.
Qed.

End PrecisionFull.

(** X5.  Full recall.  When results and relevance list are duplicate-free,
    every relevant id occurs in the results, and the last relevant result
    stands at rank [length pre + 1], the brackets at recall 1 are the point
    of that result, (Rel / Rel, Rel / rank), and the initial upper bracket
    (0, 1): [precision_at] returns the value of the code's expression
    [m * 1 + (p - m * (Rel / Rel))] with [p = Rel / rank] and slope
    [m = (1 - p) / (0 - Rel / Rel)]. *)
Theorem precision_at_full_recall (pre post relevant : list Z) (d : Z) :
  NoDup (pre ++ d :: post) → NoDup relevant →
  (∀ r, r ∈ relevant → r ∈ pre ++ d :: post) →
  d ∈ relevant →
  (∀ i, i ∈ post → i ∉ relevant) →
  let n := inject_Z (Z.of_nat (length relevant)) in
  let p := n / inject_Z (Z.of_nat (length pre) + 1) in
  let m := (1 - p) / (0 - n / n) in
  Precision.precision_at 1 (pre ++ d :: post) relevant
  = Ok (m * 1 + (p - m * (n / n))).
Proof.
  intros Hres Hnd Hsub Hd Hpost n p m.
  assert (0 < length relevant)%nat as Hrel.
  { destruct relevant; [by apply not_elem_of_nil in Hd|simpl; lia]. }
  pose proof (PrecisionFull.hits_NoDup relevant _ Hres Hnd Hsub) as Hhits.
  assert (Precision.hits relevant (pre ++ d :: post)
          = (Precision.hits relevant pre + 1)%nat) as Hsplit.
  { unfold Precision.hits. rewrite filter_app, length_app, filter_cons.
    rewrite decide_True by done. cbn [length].
    rewrite (PrecisionFacts.filter_none (λ x, x ∈ relevant) post Hpost).
    cbn [length]. lia. }
  rewrite Hsplit in Hhits.
  assert (0 < n) as Hn by (apply PrecisionFacts.inject_Z_pos; lia).
  set (P := (n / n, p)).
  assert (Precision.achieved_from relevant 0 0 (pre ++ d :: post)
          = Precision.achieved_from relevant 0 0 pre ++ [P]) as Hpts.
  { rewrite PrecisionFull.achieved_from_app. f_equal.
    cbn [Precision.achieved_from]. rewrite bool_decide_eq_true_2 by done.
    rewrite PrecisionFull.achieved_from_no_hit by exact Hpost.
    unfold P, p, n.
    replace (0 + Z.of_nat (Precision.hits relevant pre) + 1)%Z
      with (Z.of_nat (length relevant)) by lia.
    by rewrite Z.add_0_l. }
  assert (n / n == 1) as Hone by (field; lra).
  unfold Precision.precision_at.
  destruct (PrecisionFacts.scan_brackets 1 relevant (pre ++ d :: post)
              Precision.init Hrel) as (st & -> & Hlo & Hup); [done|].
  cbn [mbind result_bind]. cbn [Precision.init Precision.tp Precision.c] in Hlo, Hup.
  rewrite Hpts in Hlo, Hup. rewrite filter_app in Hlo, Hup.
  rewrite (filter_cons _ P), filter_nil in Hlo.
  rewrite (filter_cons _ P), filter_nil in Hup.
  rewrite decide_True in Hlo by (unfold P; cbn [fst]; lra).
  rewrite decide_False in Hup by (unfold P; cbn [fst]; lra).
  rewrite last_snoc in Hlo. rewrite app_nil_r in Hup.
  rewrite PrecisionFacts.filter_none in Hup.
  2:{ intros q Hq. apply PrecisionFull.achieved_recall_upper in Hq; [|done].
      assert (inject_Z (0 + Z.of_nat (Precision.hits relevant pre))
              / inject_Z (Z.of_nat (length relevant)) <= n / n) as Hle.
      { apply PrecisionFacts.div_le_mono; [|done]. unfold n.
        rewrite <- Zle_Qle. lia. }
      simpl. lra. }
  unfold Precision.lower, Precision.upper in Hlo, Hup.
  simpl in Hlo, Hup. injection Hlo as -> ->. injection Hup as -> ->.
  unfold Precision.interpolate. rewrite pydiv_ok by lra. reflexivity.
Qed.

Lemma precision_at_full_recall_witness :
  ∃ v, Precision.precision_at 1 ([3; 2; 7] ++ 5 :: [1; 4; 6; 8; 9; 10])%Z [2; 5]%Z = Ok v
     ∧ v == 1 # 2.
Proof.
  eexists. split; [|shelve].
  apply (precision_at_full_recall [3; 2; 7]%Z [1; 4; 6; 8; 9; 10]%Z [2; 5]%Z 5%Z).
  - apply (bool_decide_unpack (NoDup ([3; 2; 7] ++ 5 :: [1; 4; 6; 8; 9; 10])%Z)).
    vm_compute. exact I.
  - apply (bool_decide_unpack (NoDup [2; 5]%Z)). vm_compute. exact I.
  - intros r Hr. apply list_elem_of_In. apply list_elem_of_In in Hr.
    simpl in *. tauto.
  - apply list_elem_of_In. simpl. tauto.
  - intros i Hi Hrel. apply list_elem_of_In in Hi, Hrel. simpl in Hi, Hrel. lia.
  Unshelve. vm_compute. reflexivity.
Defined.

(** ** When [precision_at] and the mean precisions return a number *)

Lemma some_relevant_result_returns (recall : Q) (results relevant : list Z) :
  (∃ i, i ∈ results ∧ i ∈ relevant) →
  ∃ v, Precision.precision_at recall results relevant = Ok v.
Proof.
  intros Hex.
  assert (0 < length relevant)%nat as Hrel.
  { destruct Hex as (i & _ & Hi). destruct relevant; [|simpl; lia].
    by apply not_elem_of_nil in Hi. }
  pose proof (PrecisionFacts.brackets_apart recall relevant results Hrel Hex) as Hapart.
  cbn zeta in Hapart.
  unfold Precision.precision_at.
  destruct (PrecisionFacts.scan_brackets recall relevant results Precision.init Hrel)
    as (st & -> & Hlo & Hup); [done|].
  cbn [mbind result_bind]. cbn [Precision.init Precision.tp Precision.c] in Hlo, Hup.
  change (Precision.lower Precision.init) with Precision.anchor in Hlo.
  change (Precision.upper Precision.init) with Precision.anchor in Hup.
  rewrite <- Hlo, <- Hup in Hapart.
  unfold Precision.lower, Precision.upper in Hapart. cbn [fst] in Hapart.
  unfold Precision.interpolate. rewrite pydiv_ok by exact Hapart.
  by eexists.
Qed.

Lemma relevant_result_dec (results relevant : list Z) :
  (∃ i, i ∈ results ∧ i ∈ relevant) ∨ (∀ i, i ∈ results → i ∉ relevant).
Proof.
  destruct (decide (Exists (λ i, i ∈ relevant) results)) as [Hex|Hno].
  - left. by apply Exists_exists in Hex.
  - right. intros i Hi Hrel. apply Hno, Exists_exists. by exists i.
Qed.

(** X6.  [precision_at] returns a number exactly when some id of the results
    is relevant, at every target recall: the two brackets then have
    different recalls, so the division of [interpolate] is defined; with no
    relevant result the call raises. *)
Theorem precision_at_returns_iff (recall : Q) (results relevant : list Z) :
  (∃ v, Precision.precision_at recall results relevant = Ok v)
  ↔ ∃ i, i ∈ results ∧ i ∈ relevant.
Proof.
  split; [|apply some_relevant_result_returns].
  intros [v Hv]. destruct (relevant_result_dec results relevant) as [Hex|Hno]; [done|].
  by rewrite (no_relevant_result_raises recall results relevant Hno) in Hv.
Qed.

Lemma precision_at_returns_iff_witness :
  ∃ v, Precision.precision_at (3 # 4) ranking10 [2; 5]%Z = Ok v.
Proof.
  apply precision_at_returns_iff. exists 2%Z.
  split; apply list_elem_of_In; simpl; tauto.
Defined.

Module MeanFacts.
Import Metrics.

(** The accumulation loop of [mean_precision2] over levels that all yield a
    precision. *)
Lemma mean2_loop (results relevant : list Z) (levels : list nat) (acc : Q) :
  (∀ t, ∃ v, Precision.precision_at t results relevant = Ok v) →
  ∃ s, for_each (mean2_step results relevant) levels acc = Ok s.
Proof.
  intros Hall. revert acc.
  induction levels as [|i levels IH]; intros acc; cbn [for_each].
  - by exists acc.
  - destruct (Hall ((1 # 10) * inject_Z (Z.of_nat i))) as (v & Hv).
    assert (mean2_step results relevant acc i = Ok (acc + v)) as ->
      by (unfold mean2_step; by rewrite Hv).
    cbn [mbind result_bind]. apply IH.
Qed.

End MeanFacts.

(** X8.  When no id of the results is relevant, [mean_precision1] and
    [mean_precision2] raise [ZeroDivisionError]: their first call of
    [precision_at] does. *)
Theorem mean_precision_no_relevant_result (results relevant : list Z) :
  (∀ i, i ∈ results → i ∉ relevant) →
  Metrics.mean_precision1 results relevant = Raise ZeroDivisionError
  ∧ Metrics.mean_precision2 results relevant = Raise ZeroDivisionError.
Proof.
  intros Hno. unfold Metrics.mean_precision1, Metrics.mean_precision2.
  cbn [seq for_each].
  assert (∀ i, Metrics.mean2_step results relevant 0 i = Raise ZeroDivisionError)
    as -> by (intros i; unfold Metrics.mean2_step;
              by rewrite (no_relevant_result_raises _ results relevant Hno)).
  by rewrite (no_relevant_result_raises (25 # 100) results relevant Hno).
Qed.

Lemma mean_precision_no_relevant_result_witness :
  Metrics.mean_precision1 [3; 7; 1]%Z [2; 5]%Z = Raise ZeroDivisionError
  ∧ Metrics.mean_precision2 [3; 7; 1]%Z [] = Raise ZeroDivisionError.
Proof.
  split.
  - apply (mean_precision_no_relevant_result [3; 7; 1]%Z [2; 5]%Z).
    intros i Hi Hrel. apply list_elem_of_In in Hi, Hrel. simpl in Hi, Hrel. lia.
  - apply (mean_precision_no_relevant_result [3; 7; 1]%Z []).
    intros i _. apply not_elem_of_nil.
Defined.

(** X9.  [mean_precision1] and [mean_precision2] return a number exactly
    when some id of the results is relevant: every recall level they ask for
    then has a precision, and they divide by the constants 3 and 10. *)
Theorem mean_precision_returns_iff (results relevant : list Z) :
  ((∃ v, Metrics.mean_precision1 results relevant = Ok v)
   ↔ ∃ i, i ∈ results ∧ i ∈ relevant)
  ∧ ((∃ v, Metrics.mean_precision2 results relevant = Ok v)
     ↔ ∃ i, i ∈ results ∧ i ∈ relevant).
Proof.
  assert ((∃ i, i ∈ results ∧ i ∈ relevant) →
          (∃ v, Metrics.mean_precision1 results relevant = Ok v)
          ∧ (∃ v, Metrics.mean_precision2 results relevant = Ok v)) as Hret.
  { intros Hex.
    pose proof (λ t, some_relevant_result_returns t results relevant Hex) as Hall.
    split.
    - unfold Metrics.mean_precision1.
      destruct (Hall (25 # 100)) as (p1 & ->).
      destruct (Hall (5 # 10)) as (p2 & ->).
      destruct (Hall (75 # 100)) as (p3 & ->).
      cbn [mbind result_bind]. rewrite pydiv_ok by done. by eexists.
    - unfold Metrics.mean_precision2.
      destruct (MeanFacts.mean2_loop results relevant (seq 1 10) 0 Hall) as (s & ->).
      cbn [mbind result_bind]. by eexists. }
  assert ((∀ i, i ∈ results → i ∉ relevant) →
          Metrics.mean_precision1 results relevant = Raise ZeroDivisionError
          ∧ Metrics.mean_precision2 results relevant = Raise ZeroDivisionError)
    as Hraise.
  { intros Hno. unfold Metrics.mean_precision1, Metrics.mean_precision2.
    cbn [seq for_each].
    assert (∀ i, Metrics.mean2_step results relevant 0 i = Raise ZeroDivisionError)
      as -> by (intros i; unfold Metrics.mean2_step;
                by rewrite (no_relevant_result_raises _ results relevant Hno)).
    by rewrite (no_relevant_result_raises (25 # 100) results relevant Hno). }
  split; (split; [|intros Hex; by apply Hret]); intros [v Hv];
    (destruct (relevant_result_dec results relevant) as [Hex|Hno]; [done|]);
    destruct (Hraise Hno) as [H1 H2]; congruence.
Qed.

Lemma mean_precision_returns_iff_witness :
  (∃ v, Metrics.mean_precision1 ranking10 [2; 5]%Z = Ok v)
  ∧ (∃ v, Metrics.mean_precision2 ranking10 [2; 5]%Z = Ok v).
Proof.
  assert (∃ i, i ∈ ranking10 ∧ i ∈ [2; 5]%Z) as Hex.
  { exists 2%Z. split; apply list_elem_of_In; simpl; tauto. }
  split; by apply (mean_precision_returns_iff ranking10 [2; 5]%Z).
Defined.

(** ** [calc_rank] *)

Module CalcRankFacts.
Import Rank Metrics.

Lemma find_rank_None (results : list Z) (d c : Z) :
  find_rank d results c = None ↔ d ∉ results.
Proof.
  revert c. induction results as [|r results IH]; intros c; cbn [find_rank].
  - split; [intros _; apply not_elem_of_nil|done].
  - rewrite not_elem_of_cons. destruct (decide (r = d)) as [->|Hne].
    + rewrite bool_decide_eq_true_2 by done. split; [done|]. by intros [? _].
    + rewrite bool_decide_eq_false_2 by done. rewrite IH. naive_solver.
Qed.

(** What the inner loop returns is the first position of the id. *)
Lemma find_rank_Some (results : list Z) (d c r : Z) :
  find_rank d results c = Some r →
  (c <= r < c + Z.of_nat (length results))%Z
  ∧ results !! Z.to_nat (r - c) = Some d
  ∧ ∀ j, (j < Z.to_nat (r - c))%nat → results !! j ≠ Some d.
Proof.
  revert c. induction results as [|x results IH]; intros c; cbn [find_rank]; [done|].
  destruct (decide (x = d)) as [->|Hne].
  - rewrite bool_decide_eq_true_2 by done. intros [= <-].
    rewrite Z.sub_diag. cbn [length]. split; [lia|]. split; [done|]. intros j Hj.
    simpl in Hj. lia.
  - rewrite bool_decide_eq_false_2 by done. intros Hr.
    destruct (IH _ Hr) as (Hb & Hl & Hfirst). cbn [length].
    replace (Z.to_nat (r - c)) with (S (Z.to_nat (r - (c + 1)))) by lia.
    split; [lia|]. split; [done|]. intros [|j] Hj; cbn.
    + congruence.
    + apply Hfirst. lia.
Qed.

Lemma calc_rank_first (results relevant : list Z) :
  Forall2 (first_rank_of results)
          (filter (λ d, d ∈ results) relevant) (calc_rank results relevant).
Proof.
  unfold calc_rank. induction relevant as [|d relevant IH]; [constructor|].
  cbn [omap list_omap]. rewrite filter_cons.
  destruct (find_rank d results 1) as [r|] eqn:E.
  - rewrite decide_True.
    + constructor; [|exact IH]. apply find_rank_Some in E as (Hb & Hl & Hf).
      split; [lia|]. by split.
    + destruct (decide (d ∈ results)) as [|Hn]; [done|].
      apply find_rank_None with (c := 1%Z) in Hn. congruence.
  - apply find_rank_None in E. by rewrite decide_False.
Qed.

Lemma calc_rank_length (results relevant : list Z) :
  length (calc_rank results relevant)
  = length (filter (λ d, d ∈ results) relevant).
Proof. symmetry. eapply Forall2_length, calc_rank_first. Qed.

End CalcRankFacts.

(** X10.  [calc_rank] returns, in the order of the relevance list, one rank
    for each relevant id that occurs in the results and none for the others;
    the rank is the 1-based position of the first occurrence of the id, so
    it lies between 1 and the number of results. *)
Theorem calc_rank_first_positions (results relevant : list Z) :
  Forall2 (Metrics.first_rank_of results)
          (filter (λ d, d ∈ results) relevant)
          (Rank.calc_rank results relevant).
Proof. exact (CalcRankFacts.calc_rank_first results relevant). Qed.

(** ** [norm_recall] and the loops that read the ranks *)

Module RecallFacts.
Import Rank Metrics.

Lemma for_each_raise {S A : Type} (body : S → A → result S)
    (xs ys : list A) (y : A) (st st' : S) (e : exn) :
  for_each body xs st = Ok st' → body st' y = Raise e →
  for_each body (xs ++ y :: ys) st = Raise e.
Proof.
  intros Hxs Hy. rewrite RankFacts.for_each_app, Hxs. cbn [mbind result_bind for_each].
  by rewrite Hy.
Qed.

Lemma foldl_Zadd (l : list Z) (a : Z) : foldl Z.add a l = (a + sum_Z l)%Z.
Proof.
  revert a. induction l as [|x l IH]; intros a; cbn [foldl sum_Z foldr].
  - lia.
  - rewrite IH. unfold sum_Z. lia.
Qed.

(** The summing loop of [norm_recall] over the first [n] ranks. *)
Lemma recall_loop (rank : list Z) (n : nat) :
  (n ≤ length rank)%nat →
  for_each (recall_step rank) (seq 1 n) (0%Z, 0%Z)
  = Ok (sum_Z (take n rank), sum_Z (Rank.upto n)).
Proof.
  induction n as [|n IH]; intros Hn; [done|].
  rewrite seq_S, RankFacts.for_each_app, IH by lia.
  cbn [mbind result_bind for_each plus].
  destruct (lookup_lt_is_Some_2 rank n) as [r Hr]; [lia|].
  unfold recall_step, list_getitem. cbn [pred]. rewrite Hr.
  cbn [mbind result_bind fst snd]. f_equal. f_equal.
  - rewrite (take_S_r _ _ _ Hr). unfold sum_Z. rewrite foldr_app. cbn [foldr].
    rewrite <- (Z.add_0_l (foldr Z.add (r + 0)%Z (take n rank))).
    generalize (take n rank). intros l. induction l as [|x l IHl]; cbn [foldr]; lia.
  - unfold Rank.upto. rewrite seq_S, map_app. unfold sum_Z. rewrite foldr_app.
    cbn [map foldr plus].
    generalize (map (λ i : nat, Z.of_nat i) (seq 1 n)). intros l.
    induction l as [|x l IHl]; cbn [foldr]; lia.
Qed.

End RecallFacts.

Lemma norm_recall_value (results relevant ranks : list Z) :
  (0 < length relevant < length results)%nat →
  (∀ d, d ∈ relevant → Rank.occurs_once results d) →
  Forall2 (Rank.is_rank_of results) relevant ranks →
  Metrics.norm_recall results relevant
  = Ok (1 - inject_Z (Metrics.sum_Z ranks
                      - Metrics.sum_Z (Rank.upto (length relevant)))
            / inject_Z (Z.of_nat (length relevant)
                        * (Z.of_nat (length results)
                           - Z.of_nat (length relevant)))).
Proof.
  intros [Hrel HN] Honce Hranks. unfold Metrics.norm_recall.
  rewrite (RankFacts.calc_rank_positions results relevant ranks Honce Hranks).
  pose proof (Forall2_length _ _ _ Hranks) as Hlen.
  rewrite RecallFacts.recall_loop by lia. cbn [mbind result_bind fst snd].
  rewrite take_ge by lia.
  rewrite pydiv_ok by (apply inject_Z_nonzero; nia).
  reflexivity.
Qed.

(** X11.  When 0 < Rel < N and every relevant id occurs exactly once in the
    results, [norm_recall] raises nothing and returns
    1 - (sum(rank_i) - sum(1..Rel)) / (Rel * (N - Rel)),
    where rank_i is the 1-based position in the results of the i-th relevant
    id. *)
Theorem norm_recall_formula (results relevant ranks : list Z) :
  (0 < length relevant < length results)%nat →
  (∀ d, d ∈ relevant → Rank.occurs_once results d) →
  Forall2 (Rank.is_rank_of results) relevant ranks →
  Metrics.norm_recall results relevant
  = Ok (1 - inject_Z (Metrics.sum_Z ranks
                      - Metrics.sum_Z (Rank.upto (length relevant)))
            / inject_Z (Z.of_nat (length relevant)
                        * (Z.of_nat (length results)
                           - Z.of_nat (length relevant)))).
Proof. exact (norm_recall_value results relevant ranks). Qed.

Lemma norm_recall_formula_witness :
  ∃ v, Metrics.norm_recall ranking10 [2; 5]%Z = Ok v ∧ v == 13 # 16.
Proof.
  eexists. split.
  - apply (norm_recall_formula ranking10 [2; 5]%Z [2; 4]%Z).
    + simpl. lia.
    + intros d Hd. apply elem_of_cons in Hd as [->|Hd]; [reflexivity|].
      apply elem_of_cons in Hd as [->|Hd]; [reflexivity|].
      by apply not_elem_of_nil in Hd.
    + repeat (constructor; [split; [lia|reflexivity]|]). constructor.
  - vm_compute. reflexivity.
Defined.

Module MissingRank.
Import Rank Metrics.

Lemma calc_rank_all_found (results relevant : list Z) :
  (∀ d, d ∈ relevant → d ∈ results) →
  length (calc_rank results relevant) = length relevant.
Proof.
  intros Hall. rewrite CalcRankFacts.calc_rank_length. f_equal.
  induction relevant as [|d relevant IH]; [done|].
  rewrite filter_cons, decide_True by (apply Hall; left).
  f_equal. apply IH. intros d' Hd'. apply Hall. by right.
Qed.

Lemma calc_rank_some_missing (results relevant : list Z) (d : Z) :
  d ∈ relevant → d ∉ results →
  (length (calc_rank results relevant) < length relevant)%nat.
Proof.
  intros Hd Hno. rewrite CalcRankFacts.calc_rank_length.
  by apply (length_filter_lt _ _ d).
Qed.

(** Splitting [range(start, start + n)] at the first index out of range. *)
Lemma seq_split (start m n : nat) :
  (m < n)%nat →
  seq start n = seq start m ++ (start + m)%nat :: seq (S (start + m)) (n - S m).
Proof.
  intros Hmn. replace n with (m + S (n - S m))%nat at 1 by lia.
  by rewrite seq_app.
Qed.

Lemma recall_loop_short (rank : list Z) (n : nat) :
  (length rank < n)%nat →
  for_each (recall_step rank) (seq 1 n) (0%Z, 0%Z) = Raise IndexError.
Proof.
  intros Hlt. rewrite (seq_split 1 (length rank) n Hlt).
  eapply RecallFacts.for_each_raise; [by apply RecallFacts.recall_loop|].
  unfold recall_step, list_getitem. cbn [plus pred].
  by rewrite lookup_ge_None_2.
Qed.

Lemma sum_loop_ok (l1 l2 : list npfloat) (k : nat) (st : npfloat * npfloat) :
  (k ≤ length l1)%nat → (k ≤ length l2)%nat →
  ∃ st', for_each (sum_step l1 l2) (seq 0 k) st = Ok st'.
Proof.
  induction k as [|k IH]; intros H1 H2; [by eexists|].
  destruct IH as [st' Hst']; [lia..|].
  rewrite seq_S, RankFacts.for_each_app, Hst'. cbn [mbind result_bind for_each plus].
  destruct (lookup_lt_is_Some_2 l1 k) as [x1 Hx1]; [lia|].
  destruct (lookup_lt_is_Some_2 l2 k) as [x2 Hx2]; [lia|].
  unfold sum_step, list_getitem. rewrite Hx1, Hx2. by eexists.
Qed.

Lemma sum_loop_short (l1 l2 : list npfloat) (n : nat) (st : npfloat * npfloat) :
  (length l1 < n)%nat → (n ≤ length l2)%nat →
  for_each (sum_step l1 l2) (seq 0 n) st = Raise IndexError.
Proof.
  intros Hlt Hle. rewrite (seq_split 0 (length l1) n Hlt).
  destruct (sum_loop_ok l1 l2 (length l1) st) as [st' Hst']; [lia..|].
  eapply RecallFacts.for_each_raise; [exact Hst'|].
  unfold sum_step, list_getitem.
  rewrite (lookup_ge_None_2 l1) by (simpl; lia). done.
Qed.

End MissingRank.

(** X12.  [norm_recall] raises [ZeroDivisionError] when the relevance list
    is empty, and when it is as long as the results and each of its ids
    occurs in them: the divisor Rel * (N - Rel) is then 0. *)
Theorem norm_recall_zero_divisor (results relevant : list Z) :
  (∀ d, d ∈ relevant → d ∈ results) →
  relevant = [] ∨ length relevant = length results →
  Metrics.norm_recall results relevant = Raise ZeroDivisionError.
Proof.
  intros Hall Hcase. unfold Metrics.norm_recall.
  rewrite RecallFacts.recall_loop
    by (by rewrite MissingRank.calc_rank_all_found).
  cbn [mbind result_bind fst snd].
  rewrite pydiv_zero; [done|].
  assert (Z.of_nat (length relevant)
          * (Z.of_nat (length results) - Z.of_nat (length relevant)) = 0)%Z as ->.
  { destruct Hcase as [Hnil | Heq]; [rewrite Hnil; cbn [length]|]; lia. }
  reflexivity.
Qed.

Lemma norm_recall_zero_divisor_witness :
  Metrics.norm_recall ranking10 [] = Raise ZeroDivisionError
  ∧ Metrics.norm_recall [3; 2]%Z [2; 3]%Z = Raise ZeroDivisionError.
Proof.
  split.
  - apply norm_recall_zero_divisor; [|by left].
    intros d Hd. by apply not_elem_of_nil in Hd.
  - apply norm_recall_zero_divisor; [|by right].
    intros d Hd. apply list_elem_of_In. apply list_elem_of_In in Hd.
    simpl in *. tauto.
Defined.

(** X13.  When some relevant id does not occur in the results, [calc_rank]
    returns fewer ranks than there are relevant ids, and both [norm_recall]
    and [norm_precision] raise [IndexError] on reading the missing rank. *)
Theorem missing_relevant_raises_IndexError (results relevant : list Z) (d : Z) :
  d ∈ relevant → d ∉ results →
  (length (Rank.calc_rank results relevant) < length relevant)%nat
  ∧ Metrics.norm_recall results relevant = Raise IndexError
  ∧ Rank.norm_precision results relevant = Raise IndexError.
Proof.
  intros Hd Hno.
  pose proof (MissingRank.calc_rank_some_missing results relevant d Hd Hno) as Hlt.
  split; [exact Hlt|]. split.
  - unfold Metrics.norm_recall.
    by rewrite MissingRank.recall_loop_short.
  - unfold Rank.norm_precision.
    by rewrite MissingRank.sum_loop_short
      by (rewrite length_map, ?length_seq; lia).
Qed.

Lemma missing_relevant_raises_IndexError_witness :
  Metrics.norm_recall [3; 2; 7]%Z [2; 5]%Z = Raise IndexError
  ∧ Rank.norm_precision [3; 2; 7]%Z [2; 5]%Z = Raise IndexError.
Proof.
  apply (missing_relevant_raises_IndexError [3; 2; 7]%Z [2; 5]%Z 5%Z).
  - apply list_elem_of_In. simpl. tauto.
  - intros Hin. apply list_elem_of_In in Hin. simpl in Hin. lia.
Defined.

Module NanFacts.
Import Rank.
Local Open Scope R_scope.

Lemma zero_log_zero : np_mul (Fin (IZR 0)) (np_log (IZR 0)) = NaN.
Proof.
  unfold np_log. destruct (Rlt_dec 0 (IZR 0)) as [H|_]; [lra|].
  destruct (Req_dec_T (IZR 0) 0) as [_|H]; [|lra].
  cbn [np_mul]. unfold inf_scaled.
  destruct (Rlt_dec 0 (IZR 0)) as [H|_]; [lra|].
  destruct (Req_dec_T (IZR 0) 0) as [_|H]; [done|lra].
Qed.

Lemma np_sub_NaN_r (a : npfloat) : np_sub a NaN = NaN.
Proof. by destruct a. Qed.

Lemma np_sub_NaN_l (a : npfloat) : np_sub NaN a = NaN.
Proof. by destruct a. Qed.

Lemma np_div_NaN_r (a : npfloat) : np_div a NaN = NaN.
Proof. by destruct a. Qed.

End NanFacts.

(** X14.  Where [norm_recall] raises [ZeroDivisionError], [norm_precision]
    raises nothing and returns nan: for an empty relevance list, and for a
    relevance list as long as the results whose ids all occur in them, one of
    the terms is 0 * log(0). *)
Theorem norm_precision_nan (results relevant : list Z) :
  (∀ d, d ∈ relevant → d ∈ results) →
  relevant = [] ∨ length relevant = length results →
  Rank.norm_precision results relevant = Ok Rank.NaN.
Proof.
  intros Hall Hcase. unfold Rank.norm_precision.
  destruct (MissingRank.sum_loop_ok
              (map (λ r, Rank.np_log (IZR r)) (Rank.calc_rank results relevant))
              (map (λ i, Rank.np_log (IZR (Z.of_nat i + 1))) (seq 0 (length relevant)))
              (length relevant) (Rank.Fin 0, Rank.Fin 0)) as [sums ->].
  { by rewrite length_map, MissingRank.calc_rank_all_found. }
  { by rewrite length_map, length_seq. }
  cbn [mbind result_bind]. f_equal.
  destruct Hcase as [Hnil | Heq].
  - rewrite Hnil. cbn [length]. change (Z.of_nat 0) with 0%Z.
    by rewrite NanFacts.zero_log_zero, NanFacts.np_sub_NaN_r,
      NanFacts.np_div_NaN_r, NanFacts.np_sub_NaN_r.
  - rewrite Heq, Z.sub_diag.
    by rewrite NanFacts.zero_log_zero, NanFacts.np_sub_NaN_r,
      NanFacts.np_sub_NaN_l, NanFacts.np_div_NaN_r, NanFacts.np_sub_NaN_r.
Qed.

Lemma norm_precision_nan_witness :
  Rank.norm_precision ranking10 [] = Ok Rank.NaN
  ∧ Rank.norm_precision [3; 2]%Z [2; 3]%Z = Ok Rank.NaN.
Proof.
  split.
  - apply norm_precision_nan; [|by left].
    intros d Hd. by apply not_elem_of_nil in Hd.
  - apply norm_precision_nan; [|by right].
    intros d Hd. apply list_elem_of_In. apply list_elem_of_In in Hd.
    simpl in *. tauto.
Defined.

(** ** Best and worst rankings *)

Module ExtremeRankings.
Import Rank Metrics.

Lemma occurs_once_NoDup (l : list Z) (d : Z) :
  NoDup l → d ∈ l → occurs_once l d.
Proof.
  unfold occurs_once. induction 1 as [|x l Hx Hnd IH]; intros Hd.
  - by apply not_elem_of_nil in Hd.
  - rewrite filter_cons. destruct (decide (x = d)) as [->|Hne].
    + cbn [length]. f_equal. rewrite PrecisionFacts.filter_none; [done|].
      intros a Ha ->. done.
    + apply elem_of_cons in Hd as [->|Hd]; [done|]. by apply IH.
Qed.

(** The ids of a block of a ranking have the consecutive ranks of the block. *)
Lemma block_ranks (pre l post : list Z) :
  Forall2 (is_rank_of (pre ++ l ++ post)) l
          (map (λ i, Z.of_nat i) (seq (S (length pre)) (length l))).
Proof.
  revert pre. induction l as [|d l IH]; intros pre; [constructor|].
  cbn [length seq map]. constructor.
  - split; [lia|].
    replace (Z.to_nat (Z.of_nat (S (length pre)) - 1)) with (length pre) by lia.
    by apply list_lookup_middle.
  - specialize (IH (pre ++ [d])).
    rewrite <- app_assoc, length_app, Nat.add_1_r in IH. exact IH.
Qed.

Lemma sum_Z_app (l1 l2 : list Z) : sum_Z (l1 ++ l2) = (sum_Z l1 + sum_Z l2)%Z.
Proof.
  unfold sum_Z. induction l1 as [|x l1 IH]; cbn [app foldr]; [done|].
  rewrite IH. lia.
Qed.

Lemma sum_Z_shifted (a n : nat) :
  sum_Z (map (λ i, Z.of_nat i) (seq (S a) n))
  = (sum_Z (upto n) + Z.of_nat n * Z.of_nat a)%Z.
Proof.
  unfold upto. induction n as [|n IH]; [done|].
  rewrite !seq_S, !map_app, !sum_Z_app, IH. cbn [map sum_Z foldr]. lia.
Qed.

(** The value of [norm_precision], as a lemma for the rankings below. *)
Lemma norm_precision_value (results relevant ranks : list Z) :
  (0 < length relevant < length results)%nat →
  (∀ d, d ∈ relevant → occurs_once results d) →
  Forall2 (is_rank_of results) relevant ranks →
  norm_precision results relevant
  = Ok (Fin
          (1 - (sum_ln ranks - sum_ln (upto (length relevant)))
               / (IZR (Z.of_nat (length results)) * ln (IZR (Z.of_nat (length results)))
                  - IZR (Z.of_nat (length results) - Z.of_nat (length relevant))
                    * ln (IZR (Z.of_nat (length results) - Z.of_nat (length relevant)))
                  - IZR (Z.of_nat (length relevant))
                    * ln (IZR (Z.of_nat (length relevant)))))%R).
Proof.
  intros [Hrel HN] Honce Hranks.
  set (N := Z.of_nat (length results)). set (Rel := Z.of_nat (length relevant)).
  set (denominator :=
    (IZR N * ln (IZR N) - IZR (N - Rel) * ln (IZR (N - Rel))
     - IZR Rel * ln (IZR Rel))%R).
  assert (0 < denominator)%R as Hden.
  { unfold denominator. rewrite minus_IZR.
    apply RankFacts.denominator_pos; apply IZR_lt; lia. }
  unfold norm_precision.
  rewrite (RankFacts.calc_rank_positions results relevant ranks Honce Hranks).
  assert (map (λ r, np_log (IZR r)) ranks
          = map Fin (map (λ r, ln (IZR r)) ranks)) as ->.
  { rewrite map_map. apply map_ext_in. intros r Hr%list_elem_of_In.
    apply RankFacts.np_log_pos, IZR_lt.
    assert (Forall (λ r, (1 <= r)%Z) ranks) as Hall.
    { clear -Hranks. induction Hranks as [|d r' ? ? [H1 _] _ IH]; by constructor. }
    rewrite Forall_forall in Hall. specialize (Hall r Hr). simpl in Hall. lia. }
  assert (map (λ i, np_log (IZR (Z.of_nat i + 1))) (seq 0 (length relevant))
          = map Fin (map (λ i, ln (IZR (Z.of_nat i + 1))) (seq 0 (length relevant))))
    as ->.
  { rewrite map_map. apply map_ext. intros i.
    apply RankFacts.np_log_pos, IZR_lt. lia. }
  pose proof (Forall2_length _ _ _ Hranks) as Hlen.
  rewrite RankFacts.sum_loop by (rewrite length_map, ?length_seq; lia).
  cbn [mbind result_bind fst snd].
  rewrite !take_ge by (rewrite length_map, ?length_seq; lia).
  rewrite !RankFacts.np_log_pos by (apply IZR_lt; lia).
  rewrite !RankFacts.foldl_Rplus, <- RankFacts.sum_ln_foldr.
  assert (foldr Rplus 0%R (map (λ i, ln (IZR (Z.of_nat i + 1))) (seq 0 (length relevant)))
          = sum_ln (upto (length relevant))) as ->.
  { rewrite RankFacts.sum_ln_foldr. unfold upto.
    rewrite <- seq_shift, !map_map. f_equal. apply map_ext. intros i.
    do 2 f_equal. lia. }
  unfold np_sub, np_mul, np_add, np_opp, np_div.
  fold N Rel.
  set (den := (IZR N * ln (IZR N) + - (IZR (N - Rel) * ln (IZR (N - Rel)))
               + - (IZR Rel * ln (IZR Rel)))%R).
  assert (den = denominator) as Hd by (unfold den, denominator; lra).
  destruct (Req_dec_T den 0) as [Hz|_]; [lra|].
  rewrite Hd. do 2 f_equal. unfold Rminus. do 3 f_equal. lra.
Qed.

End ExtremeRankings.

(** X15.  A perfect ranking scores 1.  When the relevant ids stand at the
    head of a duplicate-free ranking, in the order of the relevance list, and
    at least one other id follows, [norm_recall] returns 1 and
    [norm_precision] returns the finite number 1. *)
Theorem perfect_ranking_scores_one (relevant rest : list Z) :
  NoDup (relevant ++ rest) → relevant ≠ [] → rest ≠ [] →
  (∃ v, Metrics.norm_recall (relevant ++ rest) relevant = Ok v ∧ v == 1)
  ∧ Rank.norm_precision (relevant ++ rest) relevant = Ok (Rank.Fin 1).
Proof.
  intros Hnd Hrel Hrest.
  assert (0 < length relevant < length (relevant ++ rest))%nat as Hlen.
  { rewrite length_app. destruct relevant, rest; try done. simpl. lia. }
  assert (∀ d, d ∈ relevant → Rank.occurs_once (relevant ++ rest) d) as Honce.
  { intros d Hd. apply ExtremeRankings.occurs_once_NoDup; [done|].
    apply elem_of_app. by left. }
  pose proof (ExtremeRankings.block_ranks [] relevant rest) as Hranks.
  cbn [app length] in Hranks. fold (Rank.upto (length relevant)) in Hranks.
  split.
  - rewrite (norm_recall_value _ _ _ Hlen Honce Hranks).
    eexists. split; [reflexivity|]. rewrite Z.sub_diag.
    unfold Qdiv. change (inject_Z 0) with 0. ring.
  - rewrite (ExtremeRankings.norm_precision_value _ _ _ Hlen Honce Hranks).
    do 2 f_equal. unfold Rdiv. ring.
Qed.

Lemma perfect_ranking_scores_one_witness :
  (∃ v, Metrics.norm_recall ([2; 5] ++ [3; 7; 1])%Z [2; 5]%Z = Ok v ∧ v == 1)
  ∧ Rank.norm_precision ([2; 5] ++ [3; 7; 1])%Z [2; 5]%Z = Ok (Rank.Fin 1).
Proof.
  apply perfect_ranking_scores_one; [|discriminate..].
  apply (bool_decide_unpack (NoDup ([2; 5] ++ [3; 7; 1])%Z)). vm_compute. exact I.
Defined.

(** X16.  A worst ranking scores 0 in [norm_recall].  When the relevant ids
    stand at the tail of a duplicate-free ranking, in the order of the
    relevance list, behind at least one other id, [norm_recall] returns 0. *)
Theorem worst_ranking_recall_zero (rest relevant : list Z) :
  NoDup (rest ++ relevant) → relevant ≠ [] → rest ≠ [] →
  ∃ v, Metrics.norm_recall (rest ++ relevant) relevant = Ok v ∧ v == 0.
Proof.
  intros Hnd Hrel Hrest.
  assert (0 < length relevant)%nat as Hr by (destruct relevant; [done|simpl; lia]).
  assert (0 < length rest)%nat as Hs by (destruct rest; [done|simpl; lia]).
  assert (0 < length relevant < length (rest ++ relevant))%nat as Hlen
    by (rewrite length_app; lia).
  assert (∀ d, d ∈ relevant → Rank.occurs_once (rest ++ relevant) d) as Honce.
  { intros d Hd. apply ExtremeRankings.occurs_once_NoDup; [done|].
    apply elem_of_app. by right. }
  pose proof (ExtremeRankings.block_ranks rest relevant []) as Hranks.
  rewrite app_nil_r in Hranks.
  rewrite (norm_recall_value _ _ _ Hlen Honce Hranks).
  eexists. split; [reflexivity|].
  rewrite ExtremeRankings.sum_Z_shifted, length_app.
  set (n := Z.of_nat (length relevant)). set (a := Z.of_nat (length rest)).
  replace (Metrics.sum_Z (Rank.upto (length relevant)) + n * a
           - Metrics.sum_Z (Rank.upto (length relevant)))%Z with (n * a)%Z by lia.
  replace (Z.of_nat (length rest + length relevant) - n)%Z with a by lia.
  assert (¬ inject_Z (n * a) == 0) by (apply inject_Z_nonzero; nia).
  field. done.
Qed.

Lemma worst_ranking_recall_zero_witness :
  ∃ v, Metrics.norm_recall ([3; 7; 1] ++ [2; 5])%Z [2; 5]%Z = Ok v ∧ v == 0.
Proof.
  apply worst_ranking_recall_zero; [|discriminate..].
  apply (bool_decide_unpack (NoDup ([3; 7; 1] ++ [2; 5])%Z)). vm_compute. exact I.
Defined.

(** ** The vectors in closed form *)

Module ClosedForm.
Import Vectorize Metrics.

Lemma occurrences_cons (t w : string) (field : list string) :
  occurrences t (w :: field)
  == (if decide (w = t) then 1 else 0) + occurrences t field.
Proof.
  unfold occurrences. rewrite filter_cons.
  destruct (decide (w = t)); cbn [length].
  - rewrite Nat2Z.inj_succ. unfold Z.succ. rewrite inject_Z_plus.
    change (inject_Z 1) with 1. lra.
  - lra.
Qed.

(** One field added to the accumulator. *)
Lemma add_field (w : Q) (words : list string) (vec : SparseVector) (t : string) :
  (is_Some (foldl (add_weight w) vec words !! t) ↔ is_Some (vec !! t) ∨ t ∈ words)
  ∧ dict_get (foldl (add_weight w) vec words) t
    == dict_get vec t + occurrences t words * w.
Proof.
  revert vec. induction words as [|word words IH]; intros vec; cbn [foldl].
  - split; [rewrite elem_of_nil; tauto|].
    change (occurrences t []) with 0. lra.
  - destruct (IH (add_weight w vec word)) as [Hdom Hget]. split.
    + rewrite Hdom. unfold add_weight. rewrite lookup_insert_is_Some, elem_of_cons.
      destruct (decide (word = t)); naive_solver.
    + rewrite Hget, occurrences_cons. unfold add_weight, dict_get.
      destruct (decide (word = t)) as [->|Hne].
      * rewrite lookup_insert_eq. cbn [default]. simpl. lra.
      * rewrite lookup_insert_ne by done. lra.
Qed.

Lemma compute_tf_closed (doc : Document) (doc_freqs : Counter)
    (weights : TermWeights) (t : string) :
  (is_Some (compute_tf doc doc_freqs weights !! t) ↔ DocFreq.contains t doc)
  ∧ dict_get (compute_tf doc doc_freqs weights) t == weighted_frequency doc weights t.
Proof.
  unfold compute_tf, weighted_frequency.
  set (v1 := foldl (add_weight (tw_author weights)) ∅ (author doc)).
  set (v2 := foldl (add_weight (tw_keyword weights)) v1 (keyword doc)).
  set (v3 := foldl (add_weight (tw_title weights)) v2 (title doc)).
  destruct (add_field (tw_author weights) (author doc) ∅ t) as [D1 G1].
  destruct (add_field (tw_keyword weights) (keyword doc) v1 t) as [D2 G2].
  destruct (add_field (tw_title weights) (title doc) v2 t) as [D3 G3].
  destruct (add_field (tw_abstract weights) (abstract doc) v3 t) as [D4 G4].
  fold v1 in D1, G1. fold v2 in D2, G2. fold v3 in D3, G3.
  split.
  - rewrite D4, D3, D2, D1. unfold DocFreq.contains.
    rewrite !elem_of_app, lookup_empty. split; [|tauto].
    intros [[[[[? H]|?]|?]|?]|?]; try tauto. done.
  - rewrite G4, G3, G2, G1. unfold dict_get at 1. rewrite lookup_empty.
    cbn [default]. simpl. lra.
Qed.

Lemma set_field (words : list string) (vec : SparseVector) (t : string) :
  foldl set_one vec words !! t = if decide (t ∈ words) then Some 1 else vec !! t.
Proof.
  revert vec. induction words as [|word words IH]; intros vec; cbn [foldl].
  - by rewrite decide_False by apply not_elem_of_nil.
  - rewrite IH. unfold set_one.
    destruct (decide (t ∈ words)) as [Hin|Hin].
    + by rewrite decide_True by (by right).
    + destruct (decide (word = t)) as [->|Hne].
      * rewrite lookup_insert_eq. by rewrite decide_True by left.
      * rewrite lookup_insert_ne by done.
        rewrite decide_False; [done|]. by intros [?|?]%elem_of_cons.
Qed.

Lemma compute_boolean_closed (doc : Document) (doc_freqs : Counter)
    (weights : TermWeights) (t : string) :
  compute_boolean doc doc_freqs weights !! t
  = if decide (DocFreq.contains t doc) then Some 1 else None.
Proof.
  unfold compute_boolean. rewrite !set_field, lookup_empty.
  unfold DocFreq.contains.
  destruct (decide (t ∈ abstract doc)), (decide (t ∈ title doc)),
    (decide (t ∈ keyword doc)), (decide (t ∈ author doc)),
    (decide (t ∈ author doc ++ title doc ++ keyword doc ++ abstract doc)) as [H|H];
    try done; rewrite !elem_of_app in H; tauto.
Qed.

End ClosedForm.



(** X18.  The boolean vector in closed form: a term is a key exactly when it
    occurs in some field of the document, and every key has weight 1, however
    often the term occurs and whatever the field weights are. *)
Theorem compute_boolean_presence (doc : Document) (doc_freqs : Counter)
    (weights : TermWeights) (t : string) :
  Vectorize.compute_boolean doc doc_freqs weights !! t
  = if decide (DocFreq.contains t doc) then Some 1 else None.
Proof. exact (ClosedForm.compute_boolean_closed doc doc_freqs weights t). Qed.

(** ** The table and the corpus *)

Module TableFacts.
Import DocFreq.

(** The entry of a term, from the documents that contain it. *)
Lemma compute_doc_freqs_lookup (docs : list Document) (t : string) :
  compute_doc_freqs docs !! t
  = if decide (containing t docs = []) then None
    else Some (Z.of_nat (length (containing t docs))).
Proof.
  pose proof (DocFreqFacts.docs_loop_get docs ∅ t) as Hget.
  pose proof (DocFreqFacts.docs_loop_dom docs ∅ t) as Hdom.
  fold (compute_doc_freqs docs) in Hget, Hdom.
  unfold Counter_get in Hget. rewrite lookup_empty in Hget.
  destruct (decide (containing t docs = [])) as [He|Hne].
  - apply eq_None_not_Some. rewrite Hdom, lookup_empty.
    intros [[? H]|H]; done.
  - destruct (proj2 Hdom (or_intror Hne)) as [n Hn].
    rewrite Hn in Hget |- *. simpl in Hget. f_equal. lia.
Qed.

Lemma contains_corpus_count (docs : list Document) (doc : Document) (t : string) :
  doc ∈ docs → contains t doc →
  (1 <= Counter_get (compute_doc_freqs docs) t)%Z.
Proof.
  intros Hin Hc. unfold Counter_get. rewrite compute_doc_freqs_lookup.
  assert (doc ∈ containing t docs) as Hd by (by apply list_elem_of_filter).
  destruct (containing t docs) as [|d l] eqn:E.
  - by apply not_elem_of_nil in Hd.
  - rewrite decide_False by done. simpl. lia.
Qed.

End TableFacts.

(** X19.  The document-frequency table does not depend on the order of the
    corpus: two corpora that are permutations of each other give the same
    table. *)
Theorem compute_doc_freqs_order_independent (docs docs' : list Document) :
  docs ≡ₚ docs' →
  DocFreq.compute_doc_freqs docs = DocFreq.compute_doc_freqs docs'.
Proof.
  intros Hperm. apply map_eq. intros t.
  rewrite !TableFacts.compute_doc_freqs_lookup.
  assert (DocFreq.containing t docs ≡ₚ DocFreq.containing t docs') as Hc
    by (unfold DocFreq.containing; by rewrite Hperm).
  destruct (decide (DocFreq.containing t docs = [])) as [He|Hne],
    (decide (DocFreq.containing t docs' = [])) as [He'|Hne'].
  - done.
  - rewrite He in Hc. by apply Permutation_nil_l in Hc.
  - rewrite He' in Hc. by apply Permutation_nil_r in Hc.
  - by rewrite (Permutation_length Hc).
Qed.

Lemma compute_doc_freqs_order_independent_witness :
  DocFreq.compute_doc_freqs [doc_smith; doc_jones]
  = DocFreq.compute_doc_freqs [doc_jones; doc_smith].
Proof.
  apply compute_doc_freqs_order_independent. apply Permutation_swap.
Defined.

(** X20.  A document of the corpus, vectorized by the inverse-document-
    frequency scheme with the table of that corpus and strictly positive field
    weights, has only strictly positive weights, none above the accumulated
    weight of the raw-weighted-frequency scheme. *)
Theorem compute_tfidf_corpus_document
    (docs : list Document) (doc : Document) (weights : TermWeights) :
  doc ∈ docs → Vectorize.positive_weights weights →
  ∃ vec,
    Vectorize.compute_tfidf doc (DocFreq.compute_doc_freqs docs) weights = Ok vec
    ∧ ∀ t v, vec !! t = Some v →
        0 < v ∧ v <= dict_get (Vectorize.compute_tf doc
                                 (DocFreq.compute_doc_freqs docs) weights) t.
Proof.
  intros Hin Hpos. set (df := DocFreq.compute_doc_freqs docs).
  destruct (VectorizeFacts.compute_tfidf_lookup doc df weights) as (vec & Hvec & Hlook).
  exists vec. split; [exact Hvec|]. intros t v Hv. rewrite Hlook in Hv.
  destruct (Vectorize.compute_tf doc df weights !! t) as [w|] eqn:E; [|done].
  injection Hv as <-.
  pose proof (VectorizeFacts.compute_tf_positive doc df weights Hpos t w E) as Hw.
  simpl in Hw.
  assert (DocFreq.contains t doc) as Hc.
  { apply (ClosedForm.compute_tf_closed doc df weights t). by eexists. }
  pose proof (TableFacts.contains_corpus_count docs doc t Hin Hc) as Hcount.
  fold df in Hcount.
  rewrite (SumFacts.dict_get_Some _ _ _ E). unfold Vectorize.idf_weight.
  rewrite bool_decide_eq_true_2 by lia.
  assert (1 <= inject_Z (Counter_get df t)) as Hd
    by (change 1 with (inject_Z 1); rewrite <- Zle_Qle; lia).
  split.
  - apply PrecisionFacts.div_pos; lra.
  - apply Qle_shift_div_r; [lra|]. nra.
Qed.

Lemma compute_tfidf_corpus_document_witness :
  ∃ vec,
    Vectorize.compute_tfidf doc_smith
      (DocFreq.compute_doc_freqs [doc_smith; doc_jones]) weights_unit = Ok vec
    ∧ ∀ t v, vec !! t = Some v →
        0 < v ∧ v <= dict_get (Vectorize.compute_tf doc_smith
                                 (DocFreq.compute_doc_freqs [doc_smith; doc_jones])
                                 weights_unit) t.
Proof.
  apply compute_tfidf_corpus_document.
  - left.
  - unfold Vectorize.positive_weights. simpl. lra.
Defined.

(** ** Preprocessing *)

Module PreprocessFacts.
Import Preprocess.

Lemma keep_words_elem (stopwords : gset string) (sec : list string) (w : string) :
  w ∈ keep_words stopwords sec ↔ w ∈ sec ∧ w ∉ stopwords.
Proof. unfold keep_words. rewrite list_elem_of_filter. tauto. Qed.

Lemma keep_words_idemp (stopwords : gset string) (sec : list string) :
  keep_words stopwords (keep_words stopwords sec) = keep_words stopwords sec.
Proof.
  unfold keep_words. induction sec as [|w sec IH]; [done|].
  rewrite filter_cons. destruct (decide (w ∉ stopwords)) as [Hw|Hw]; [|exact IH].
  rewrite filter_cons, decide_True by done. by rewrite IH.
Qed.

Lemma remove_contains (stopwords : gset string) (doc : Document) (t : string) :
  DocFreq.contains t (remove_stopwords_doc stopwords doc)
  ↔ DocFreq.contains t doc ∧ t ∉ stopwords.
Proof.
  unfold DocFreq.contains, remove_stopwords_doc. cbn.
  rewrite !elem_of_app, !keep_words_elem. tauto.
Qed.

Lemma containing_remove (stopwords : gset string) (docs : list Document) (t : string) :
  t ∉ stopwords →
  length (DocFreq.containing t (remove_stopwords stopwords docs))
  = length (DocFreq.containing t docs).
Proof.
  intros Ht. unfold DocFreq.containing, remove_stopwords.
  induction docs as [|doc docs IH]; [done|].
  cbn [map]. rewrite !filter_cons.
  pose proof (remove_contains stopwords doc t) as Hc.
  destruct (decide (DocFreq.contains t (remove_stopwords_doc stopwords doc))),
    (decide (DocFreq.contains t doc)); cbn [length]; try (by rewrite IH); tauto.
Qed.

Lemma containing_remove_stopword (stopwords : gset string) (docs : list Document)
    (t : string) :
  t ∈ stopwords →
  DocFreq.containing t (remove_stopwords stopwords docs) = [].
Proof.
  intros Ht. unfold DocFreq.containing. apply PrecisionFacts.filter_none.
  intros doc' Hd. unfold remove_stopwords in Hd.
  apply list_elem_of_fmap in Hd as (doc & -> & _).
  rewrite remove_contains. tauto.
Qed.

End PreprocessFacts.

(** X21.  [remove_stopwords] returns one document for each document of its
    argument, in the same order and with the same id, and each of the four
    fields of a returned document is the field of the original with the stop
    words taken out: the other words stay, in their order and as often as
    they occur.  So no stop word is left, the terms of a document are those
    it had that are not stop words, and removing twice changes nothing
    more. *)
Theorem remove_stopwords_filters (stopwords : gset string) (docs : list Document) :
  Forall2 (λ doc' doc,
      doc_id doc' = doc_id doc
      ∧ author doc' = filter (λ w, w ∉ stopwords) (author doc)
      ∧ title doc' = filter (λ w, w ∉ stopwords) (title doc)
      ∧ keyword doc' = filter (λ w, w ∉ stopwords) (keyword doc)
      ∧ abstract doc' = filter (λ w, w ∉ stopwords) (abstract doc))
    (Preprocess.remove_stopwords stopwords docs) docs
  ∧ (∀ doc' sec w, doc' ∈ Preprocess.remove_stopwords stopwords docs →
       sec ∈ sections doc' → w ∈ sec → w ∉ stopwords)
  ∧ (∀ doc t, doc ∈ docs →
       (DocFreq.contains t (Preprocess.remove_stopwords_doc stopwords doc)
        ↔ DocFreq.contains t doc ∧ t ∉ stopwords))
  ∧ Preprocess.remove_stopwords stopwords
      (Preprocess.remove_stopwords stopwords docs)
    = Preprocess.remove_stopwords stopwords docs.
Proof.
  split; [|split; [|split]].
  - unfold Preprocess.remove_stopwords.
    induction docs as [|doc docs IH]; cbn [map]; constructor; [|exact IH].
    by repeat split.
  - intros doc' sec w Hd Hsec Hw. unfold Preprocess.remove_stopwords in Hd.
    apply list_elem_of_fmap in Hd as (doc & -> & _).
    unfold sections, Preprocess.remove_stopwords_doc in Hsec. cbn in Hsec.
    repeat (apply elem_of_cons in Hsec as [->|Hsec];
            [by apply PreprocessFacts.keep_words_elem in Hw as [_ ?]|]).
    by apply not_elem_of_nil in Hsec.
  - intros doc t _. apply PreprocessFacts.remove_contains.
  - unfold Preprocess.remove_stopwords. rewrite map_map. apply map_ext.
    intros doc. unfold Preprocess.remove_stopwords_doc.
    cbn [doc_id author title keyword abstract].
    by rewrite !PreprocessFacts.keep_words_idemp.
Qed.

Lemma remove_stopwords_filters_witness :
  Preprocess.remove_stopwords stop_list [doc_the]
  = [ {| doc_id := 3; author := ["knuth"%string];
         title := ["art"%string; "parsing"%string];
         keyword := []; abstract := ["tables"%string] |} ]
  ∧ (DocFreq.contains "art" (Preprocess.remove_stopwords_doc stop_list doc_the)
     ↔ DocFreq.contains "art" doc_the ∧ "art"%string ∉ stop_list).
Proof.
  split; [vm_compute; reflexivity|].
  apply (remove_stopwords_filters stop_list [doc_the]). left.
Defined.

(** X22.  Removing stop words and then counting document frequencies gives
    a table without any stop word, in which every other term has the count it
    has in the table of the unfiltered corpus. *)
Theorem compute_doc_freqs_without_stopwords
    (stopwords : gset string) (docs : list Document) (t : string) :
  (t ∈ stopwords →
   DocFreq.compute_doc_freqs (Preprocess.remove_stopwords stopwords docs) !! t = None)
  ∧ (t ∉ stopwords →
     DocFreq.compute_doc_freqs (Preprocess.remove_stopwords stopwords docs) !! t
     = DocFreq.compute_doc_freqs docs !! t).
Proof.
  rewrite !TableFacts.compute_doc_freqs_lookup. split.
  - intros Ht. by rewrite PreprocessFacts.containing_remove_stopword.
  - intros Ht. pose proof (PreprocessFacts.containing_remove stopwords docs t Ht) as Hlen.
    rewrite Hlen.
    destruct (DocFreq.containing t (Preprocess.remove_stopwords stopwords docs)),
      (DocFreq.containing t docs); try done.
Qed.

Lemma compute_doc_freqs_without_stopwords_witness :
  DocFreq.compute_doc_freqs (Preprocess.remove_stopwords stop_list [doc_the; doc_smith])
    !! "of"%string = None
  ∧ DocFreq.compute_doc_freqs (Preprocess.remove_stopwords stop_list [doc_the; doc_smith])
      !! "parsing"%string
    = DocFreq.compute_doc_freqs [doc_the; doc_smith] !! "parsing"%string.
Proof.
  split.
  - apply (compute_doc_freqs_without_stopwords stop_list [doc_the; doc_smith] "of").
    apply (bool_decide_unpack ("of"%string ∈ stop_list)). vm_compute. exact I.
  - apply (compute_doc_freqs_without_stopwords stop_list [doc_the; doc_smith] "parsing").
    apply (bool_decide_unpack ("parsing"%string ∉ stop_list)). vm_compute. exact I.
Defined.

(** X23.  [process_docs_and_queries] keeps the documents and the queries in
    number, order and id for every choice of the two flags, and its result
    does not depend on its [stopwords] argument: stop words are removed with
    the module-level list. *)
Theorem process_docs_and_queries_ids
    (global_stopwords : gset string) (stemmer : string → string)
    (docs queries : list Document) (stem removestop : bool)
    (stopwords stopwords' : gset string) :
  let out := Preprocess.process_docs_and_queries global_stopwords stemmer
               docs queries stem removestop stopwords in
  map doc_id out.1 = map doc_id docs
  ∧ map doc_id out.2 = map doc_id queries
  ∧ out = Preprocess.process_docs_and_queries global_stopwords stemmer
            docs queries stem removestop stopwords'.
Proof.
  assert (∀ l, map doc_id (Preprocess.stem_docs stemmer l) = map doc_id l) as Hs.
  { intros l. unfold Preprocess.stem_docs. rewrite map_map. by apply map_ext. }
  assert (∀ l, map doc_id (Preprocess.remove_stopwords global_stopwords l)
               = map doc_id l) as Hr.
  { intros l. unfold Preprocess.remove_stopwords. rewrite map_map. by apply map_ext. }
  unfold Preprocess.process_docs_and_queries.
  destruct stem, removestop; cbn [fst snd]; rewrite ?Hs, ?Hr; done.
Qed.

(** ** Symmetry and degenerate vectors *)

Module SymmetryFacts.
Import Similarity SumFacts.


Lemma sum_map_zero {A : Type} (f : A → Q) (l : list A) :
  (∀ a, a ∈ l → f a == 0) → sum (map f l) == 0.
Proof.
  induction l as [|a l IH]; intros Hf; cbn [map].
  - by rewrite sum_nil.
  - rewrite sum_cons, (Hf a) by left. rewrite IH; [lra|].
    intros b Hb. apply Hf. by right.
Qed.











End SymmetryFacts.





(** X26.  [jaccard_sim] never raises: on every pair of vectors, whatever the
    signs of their weights, it returns a number, because it divides only
    after it has compared the divisor with 0. *)
Theorem jaccard_sim_never_raises (x y : SparseVector) :
  ∃ v, Similarity.jaccard_sim x y = Ok v.
Proof.
  unfold Similarity.jaccard_sim.
  destruct (Qeq_bool (Similarity.dictdot x y) 0); [by eexists|].
  destruct (Qeq_bool _ 0) eqn:E; [by eexists|].
  apply SimilarityFacts.Qeq_bool_false in E. rewrite pydiv_ok by done. by eexists.
Qed.

(** X27.  Vectors without a common key, an empty vector among them, have dot
    product 0, and [dice_sim], [jaccard_sim] and [overlap_sim] return 0 on
    them without dividing. *)
Theorem disjoint_vectors_score_zero (x y : SparseVector) :
  (∀ k, x !! k = None ∨ y !! k = None) →
  Similarity.dictdot x y == 0
  ∧ Similarity.dice_sim x y = Ok 0
  ∧ Similarity.jaccard_sim x y = Ok 0
  ∧ Similarity.overlap_sim x y = Ok 0.
Proof.
  intros Hdis.
  assert (Similarity.dictdot x y == 0) as Hdot.
  { unfold Similarity.dictdot. apply SymmetryFacts.sum_map_zero. intros k _.
    destruct (Hdis k) as [H|H]; rewrite (SumFacts.dict_get_None _ _ H); lra. }
  split; [exact Hdot|].
  unfold Similarity.dice_sim, Similarity.jaccard_sim, Similarity.overlap_sim.
  apply Qeq_bool_iff in Hdot. by rewrite Hdot.
Qed.

Lemma disjoint_vectors_score_zero_witness :
  Similarity.dice_sim vec_a2 vec_b1 = Ok 0
  ∧ Similarity.overlap_sim ∅ vec_ab = Ok 0.
Proof.
  split.
  - apply (disjoint_vectors_score_zero vec_a2 vec_b1). intros k.
    destruct (decide (k = "a"%string)) as [->|Hne]; [by right|left].
    by apply lookup_singleton_ne.
  - apply (disjoint_vectors_score_zero ∅ vec_ab). intros k. by left.
Defined.

(** ** [search] and a similarity function that raises *)

Lemma mapM_first_raise {A B : Type} (f : A → result B)
    (xs ys : list A) (y : A) (e : exn) :
  (∀ x, x ∈ xs → ∃ b, f x = Ok b) → f y = Raise e →
  mapM f (xs ++ y :: ys) = Raise e.
Proof.
  intros Hxs Hy. induction xs as [|x xs IH]; cbn [app mapM].
  - by rewrite Hy.
  - destruct (Hxs x) as [b ->]; [left|]. cbn [mbind result_bind].
    rewrite IH by (intros; apply Hxs; by right). done.
Qed.

Lemma enumerate_from_app {A : Type} (l1 l2 : list A) (start : Z) :
  Search.enumerate_from start (l1 ++ l2)
  = Search.enumerate_from start l1
    ++ Search.enumerate_from (start + Z.of_nat (length l1)) l2.
Proof.
  revert start. induction l1 as [|a l1 IH]; intros start; cbn [app Search.enumerate_from].
  - by rewrite Z.add_0_r.
  - rewrite IH. cbn [length]. do 3 f_equal. lia.
Qed.

(** X28.  [search] returns no ranking when the similarity function raises:
    it raises the exception of the first document, in corpus order, on which
    the similarity function does. *)
Theorem search_raises_first_error
    (pre post : list SparseVector) (doc_vec query_vec : SparseVector)
    (sim : SparseVector → SparseVector → result Q) (e : exn) :
  (∀ dv, dv ∈ pre → ∃ s, sim query_vec dv = Ok s) →
  sim query_vec doc_vec = Raise e →
  Search.search (pre ++ doc_vec :: post) query_vec sim = Raise e.
Proof.
  intros Hpre Hraise. unfold Search.search, Search.enumerate.
  rewrite enumerate_from_app. cbn [Search.enumerate_from].
  rewrite (mapM_first_raise _ _ _ _ e); [done| |].
  - intros p Hp. apply SearchFacts.enumerate_from_elem in Hp as (k & _ & Hk).
    destruct (Hpre p.2) as [s ->]; [by eapply list_elem_of_lookup_2|].
    by eexists.
  - cbn [snd]. by rewrite Hraise.
Qed.

Lemma search_raises_first_error_witness :
  Search.search ([vec_ab] ++ vec_mixed :: [vec_b1]) vec_mixed Similarity.dice_sim
  = Raise ZeroDivisionError.
Proof.
  apply search_raises_first_error.
  - intros dv Hdv. apply elem_of_cons in Hdv as [->|Hdv]; [by eexists|].
    by apply not_elem_of_nil in Hdv.
  - vm_compute. reflexivity.
Defined.
